(** * order-go: the per-client rate limiter of [internal/interfaces/http/middleware]

    A shallow embedding of the rate-limiting middleware ([RateLimiter],
    [getLimiter], [cleanupInactiveLimiters]), of the client-address
    derivation ([RealIP], [GetRealIP]) and of the token bucket the
    specification describes, together with the properties the
    specification states about them.

    Conventions.
    - Go's [int64] and [time.Duration] values are integers of [Z]; the one
      subtraction the code performs on them wraps around as in Go.
    - [float64] quantities (rates, token counts) are exact rationals of [Q].
    - A Go map is a [gmap]; a [*rate.Limiter] is an address into a store of
      limiters, so that object identity can be told from object state.
    - The clock is an input: every function that calls [time.Now] takes the
      reading as an argument. *)

From Stdlib Require Import ZArith QArith Qminmax Lia Lqa String Ascii List.
From stdpp Require Import gmap strings list fin_maps.

Local Open Scope Z_scope.

(** ** Machine integers and durations *)

Module Int64.
Definition min_int : Z := - 2 ^ 63.
Definition max_int : Z := 2 ^ 63 - 1.

Definition in_range (z : Z) : Prop := min_int <= z <= max_int.

(** Two's complement wrap-around of a mathematical integer. *)
Definition wrap (z : Z) : Z := (z + 2 ^ 63) mod 2 ^ 64 - 2 ^ 63.

(** Go's [a - b] on [int64]. *)
Definition sub (a b : Z) : Z := wrap (a - b).
End Int64.

(** [time.Duration] counts nanoseconds. *)
Module Duration.
Definition Nanosecond : Z := 1.
Definition Second : Z := 1000000000 * Nanosecond.
Definition Minute : Z := 60 * Second.
End Duration.

(** ** The limiter registry

    [limiterEntry] pairs a limiter with the time of its last use.  The
    [limiter] field is a pointer in the source; here it is the address of the
    limiter in the store's [heap]. *)

Record limiterEntry := mkEntry {
  limiter : nat;
  lastAccess : Z
}.

Global Instance limiterEntry_eq_dec : EqDecision limiterEntry.
Proof. solve_decision. Defined.

Section Registry.
(** [rate.Limiter] comes from [golang.org/x/time/rate]; the registry only
    constructs limiters and hands them out, so it is generic in them.
    The last argument of [NewLimiter] is the clock reading at the time of
    the call. *)
Context {Limiter : Type}.
Variable NewLimiter : Q -> Z -> Z -> Limiter.

(** The state captured by the closures of [RateLimiter]: the [limiters]
    map and the limiter objects it points to.  [heap] only grows: its
    length is the number of limiters constructed so far. *)
Record Store := mkStore {
  limiters : gmap string limiterEntry;
  heap : list Limiter
}.

Definition constructed (st : Store) : nat := length (heap st).

(** [atomic.StoreInt64(&entry.lastAccess, now)] on the entry under [key]. *)
Definition stamp (key : string) (entry : limiterEntry) (now : Z)
    (st : Store) : Store :=
  mkStore (<[key := mkEntry (limiter entry) now]> (limiters st)) (heap st).

(** The section of [getLimiter] that runs under [mu.RLock]: look the key
    up and, when it is there, stamp the entry. *)
Definition getLimiter_rlocked (now : Z) (key : string) (st : Store)
    : option nat * Store :=
  match limiters st !! key with
  | Some entry => (Some (limiter entry), stamp key entry now st)
  | None => (None, st)
  end.

(** The section of [getLimiter] that runs under [mu.Lock]: check again,
    and construct and insert a limiter only when the key is still absent. *)
Definition getLimiter_locked (rps : Q) (burst : Z) (now : Z) (key : string)
    (st : Store) : nat * Store :=
  match limiters st !! key with
  | Some entry => (limiter entry, stamp key entry now st)
  | None =>
      let l := length (heap st) in
      (l, mkStore (<[key := mkEntry l now]> (limiters st))
                  (heap st ++ [NewLimiter rps burst now]))
  end.

Definition getLimiter (rps : Q) (burst : Z) (now : Z) (key : string)
    (st : Store) : nat * Store :=
  match getLimiter_rlocked now key st with
  | (Some l, st') => (l, st')
  | (None, st') => getLimiter_locked rps burst now key st'
  end.

(** [cleanupInactiveLimiters]: one pass over the map, deleting the entries
    last used before the cutoff.  Deleting from a Go map while ranging over
    it is allowed; the pass visits the entries of the map as it was when the
    pass began and deletes from the live map. *)
Definition cutoff (now ttl : Z) : Z := Int64.sub now ttl.

Definition cleanup_visit (c : Z) (key : string) (entry : limiterEntry)
    (live : gmap string limiterEntry) : gmap string limiterEntry :=
  if lastAccess entry <? c then delete key live else live.

Definition cleanupInactiveLimiters (now ttl : Z) (st : Store) : Store :=
  let c := cutoff now ttl in
  mkStore (map_fold (cleanup_visit c) (limiters st) (limiters st)) (heap st).

(** Every entry points into the heap. *)
Definition wf_store (st : Store) : Prop :=
  forall key entry, limiters st !! key = Some entry ->
    (limiter entry < length (heap st))%nat.

End Registry.

(** ** Requests and responses

    What the middleware reads of an [http.Request]: its headers, the peer
    address and the values this package stores in the request context (all of
    them strings, keyed by a [ContextKey]).  Header names are looked up as
    the code writes them; the canonical spelling [net/http] gives to every
    header name, on storing and on [Get] alike, is left out. *)

Record Request := mkRequest {
  Header : gmap string (list string);
  RemoteAddr : string; Context : gmap string string
}.

(** [http.Header.Get]: the first value under the key, or the empty string. *)
Definition Header_Get (h : gmap string (list string)) (key : string) : string :=
  match h !! key with
  | Some (v :: _) => v
  | _ => ""%string
  end.

(** [http.Header.Set]: the key is bound to the single given value. *)
Definition Header_Set (key value : string) (h : gmap string (list string))
    : gmap string (list string) :=
  <[key := [value]]> h.

Definition RequestIDKey : string := "request_id".
Definition RealIPKey : string := "real_ip".

Definition WithValue (key value : string) (r : Request) : Request :=
  mkRequest (Header r) (RemoteAddr r) (<[key := value]> (Context r)).

(** The response as the [responseWriter] wrapper of this package records it:
    the first status written wins, and a body write without a status implies
    200. *)
Record ResponseWriter := mkWriter {
  header : gmap string (list string);
  statusCode : Z;
  written : bool;
  body : string
}.

Definition StatusOK : Z := 200.
Definition StatusTooManyRequests : Z := 429.

Definition SetHeader (key value : string) (w : ResponseWriter) : ResponseWriter :=
  mkWriter (Header_Set key value (header w)) (statusCode w) (written w) (body w).

Definition WriteHeader (code : Z) (w : ResponseWriter) : ResponseWriter :=
  if written w then w
  else mkWriter (header w) code true (body w).

Definition Write (b : string) (w : ResponseWriter) : ResponseWriter :=
  let w' := if written w then w else mkWriter (header w) StatusOK true (body w) in
  mkWriter (header w') (statusCode w') (written w') (body w' ++ b)%string.

(** The response a handler starts from. *)
Definition fresh_writer : ResponseWriter := mkWriter ∅ StatusOK false "".

(** An [http.Handler]: it acts on the response and on whatever state [D] the
    rest of the application has. *)
Definition Handler (D : Type) : Type :=
  Request -> ResponseWriter * D -> ResponseWriter * D.

(** ** Strings *)

(** [strings.Split(s, sep)] for a one-byte separator. *)
Fixpoint Split (s : string) (sep : ascii) : list string :=
  match s with
  | EmptyString => [EmptyString]
  | String c s' =>
      if Ascii.eqb c sep then EmptyString :: Split s' sep
      else match Split s' sep with
           | hd :: tl => String c hd :: tl
           | [] => [String c EmptyString]
           end
  end.

Fixpoint HasPrefix (s pre : string) : bool :=
  match pre, s with
  | EmptyString, _ => true
  | String p pre', String c s' => Ascii.eqb p c && HasPrefix s' pre'
  | String _ _, EmptyString => false
  end.

(** [strings.Contains]. *)
Fixpoint Contains (s sub : string) : bool :=
  HasPrefix s sub ||
  match s with
  | EmptyString => false
  | String _ s' => Contains s' sub
  end.

Definition nonempty (s : string) : bool := negb (String.eqb s "").

Definition dq : string := String "034"%char EmptyString.

(** The body [RateLimiter] writes on rejection. *)
Definition rate_limited_body : string :=
  ("{" ++ dq ++ "success" ++ dq ++ ":false," ++ dq ++ "error" ++ dq ++ ":{"
   ++ dq ++ "code" ++ dq ++ ":" ++ dq ++ "RATE_LIMITED" ++ dq ++ ","
   ++ dq ++ "message" ++ dq ++ ":" ++ dq
   ++ "Too many requests, please try again later" ++ dq ++ "}}")%string.

(** The fragment the specification looks for in that body. *)
Definition rate_limited_code : string :=
  (dq ++ "code" ++ dq ++ ":" ++ dq ++ "RATE_LIMITED" ++ dq)%string.

(** ** Client address derivation *)

Section RealIP.
(** [strings.TrimSpace], [net.ParseIP] and [net.SplitHostPort] belong to
    Go's standard library. *)
Variable TrimSpace : string -> string.
Variable ParseIP : string -> option (list Z).
Variable SplitHostPort : string -> string * string * option string.

(** The candidate address [RealIP] reads from the proxy headers. *)
Definition RealIP_candidate (r : Request) : string :=
  let xff := Header_Get (Header r) "X-Forwarded-For" in
  if nonempty xff then
    let ips := Split xff ","%char in
    match ips with
    | ip0 :: _ => TrimSpace ip0
    | [] => ""%string
    end
  else
    let xri := Header_Get (Header r) "X-Real-IP" in
    if nonempty xri then TrimSpace xri else ""%string.

(** [RealIP]: the request handed to the next handler. *)
Definition RealIP_request (r : Request) : Request :=
  let realIP := RealIP_candidate r in
  if nonempty realIP && bool_decide (is_Some (ParseIP realIP))
  then WithValue RealIPKey realIP r
  else r.

Definition RealIP {D} (next : Handler D) : Handler D :=
  fun r wd => next (RealIP_request r) wd.

(** The fallback of [GetRealIP]: the host of the peer address, or the
    whole peer address when no host can be split off. *)
Definition peer_address (r : Request) : string :=
  let host := (SplitHostPort (RemoteAddr r)).1.1 in
  if nonempty host then host else RemoteAddr r.

Definition GetRealIP (r : Request) : string :=
  match Context r !! RealIPKey with
  | Some ip => if nonempty ip then ip else peer_address r
  | None => peer_address r
  end.

(** The key derivation in the specification's words: the first entry of
    the forwarded list when that header is present, else the real-address
    header when present; the candidate when it is a valid address, else the
    peer address.  A header is present when [Get] finds a value for it. *)
Definition spec_candidate (r : Request) : option string :=
  let xff := Header_Get (Header r) "X-Forwarded-For" in
  let xri := Header_Get (Header r) "X-Real-IP" in
  if nonempty xff then TrimSpace <$> head (Split xff ","%char)
  else if nonempty xri then Some (TrimSpace xri)
  else None.

Definition spec_key (r : Request) : string :=
  match spec_candidate r with
  | Some c =>
      match ParseIP c with
      | Some _ => c
      | None => peer_address r
      end
  | None => peer_address r
  end.
End RealIP.

(** ** The middleware *)

Record RateLimiterConfig := mkConfig {
  RequestsPerSecond : Q;
  Burst : Z;
  KeyFunc : Request -> string;
  CleanupInterval : Z;
  InactiveTTL : Z
}.

Section Middleware.
Context {Limiter : Type}.
Variable NewLimiter : Q -> Z -> Z -> Limiter.
(** [Allow] of [rate.Limiter]: the decision and the limiter's new state, at a
    given clock reading. *)
Variable Allow : Limiter -> Z -> bool * Limiter.
Variable SplitHostPort : string -> string * string * option string.

Definition DefaultRateLimiterConfig : RateLimiterConfig :=
  mkConfig 10 20 (fun r => GetRealIP SplitHostPort r)
           (5 * Duration.Minute) (10 * Duration.Minute).

(** What a call of [RateLimiter] sets up: the configuration after
    defaulting, the empty registry, and the cleanup goroutine with its
    cancellation context.  [ctx_done] tells whether that context has been
    cancelled, [cleanup_running] whether the goroutine is still in its
    loop.  The goroutine makes its ticker from the cleanup interval, and
    [time.NewTicker] panics on an interval that is not positive; the
    statements about the goroutine are for configurations whose interval is
    not negative. *)
Record Middleware := mkMiddleware {
  config : RateLimiterConfig;
  store : @Store Limiter;
  ctx_done : bool;
  cleanup_running : bool
}.

Definition with_store (m : Middleware) (st : @Store Limiter) : Middleware :=
  mkMiddleware (config m) st (ctx_done m) (cleanup_running m).

Definition RateLimiter (cfg : RateLimiterConfig) : Middleware :=
  let interval :=
    if CleanupInterval cfg =? 0 then 5 * Duration.Minute
    else CleanupInterval cfg in
  let ttl :=
    if InactiveTTL cfg =? 0 then 10 * Duration.Minute
    else InactiveTTL cfg in
  mkMiddleware
    (mkConfig (RequestsPerSecond cfg) (Burst cfg) (KeyFunc cfg) interval ttl)
    (mkStore ∅ [])
    false
    true.

(** [limiter.Allow()] through the pointer [l]; [None] is the nil
    dereference of a pointer that is not in the heap. *)
Definition Allow_at (l : nat) (t : Z) (st : @Store Limiter)
    : option (bool * @Store Limiter) :=
  match heap st !! l with
  | Some lim =>
      let '(ok, lim') := Allow lim t in
      Some (ok, mkStore (limiters st) (<[l := lim']> (heap st)))
  | None => None
  end.

(** The first half of the handler: key, limiter, decision.  [now] is the
    clock reading of [getLimiter], [t] the one of [Allow]. *)
Definition decision (cfg : RateLimiterConfig) (now t : Z) (r : Request)
    (st : @Store Limiter) : option (bool * @Store Limiter) :=
  let key := KeyFunc cfg r in
  let '(l, st1) :=
    getLimiter NewLimiter (RequestsPerSecond cfg) (Burst cfg) now key st in
  Allow_at l t st1.

Definition reject (w : ResponseWriter) : ResponseWriter :=
  let w1 := SetHeader "Content-Type" "application/json" w in
  let w2 := SetHeader "Retry-After" "1" w1 in
  let w3 := WriteHeader StatusTooManyRequests w2 in
  Write rate_limited_body w3.

(** The handler [RateLimiter] returns, wrapping [next]. *)
Definition RateLimiter_ServeHTTP {D} (next : Handler D) (now t : Z)
    (r : Request) (wd : ResponseWriter * D) (m : Middleware)
    : option (ResponseWriter * D * Middleware) :=
  match decision (config m) now t r (store m) with
  | None => None
  | Some (ok, st') =>
      if negb ok then Some (reject wd.1, wd.2, with_store m st')
      else Some (next r wd, with_store m st')
  end.

(** A series of requests through [decision], each with its two clock
    readings: the decisions in order and the final store. *)
Fixpoint decisions (cfg : RateLimiterConfig)
    (reqs : list (Z * Z * Request)) (st : @Store Limiter)
    : option (list bool * @Store Limiter) :=
  match reqs with
  | [] => Some ([], st)
  | (now, t, r) :: reqs' =>
      match decision cfg now t r st with
      | Some (ok, st') =>
          match decisions cfg reqs' st' with
          | Some (oks, st'') => Some (ok :: oks, st'')
          | None => None
          end
      | None => None
      end
  end.

(** Successive calls of [Allow] on one limiter. *)
Fixpoint Allow_series (lim : Limiter) (ts : list Z) : list bool * Limiter :=
  match ts with
  | [] => ([], lim)
  | t :: ts' =>
      let '(ok, lim') := Allow lim t in
      let '(oks, lim'') := Allow_series lim' ts' in
      (ok :: oks, lim'')
  end.

(** The cleanup goroutine: each turn of its loop is a [select] between the
    cancellation context and the ticker. *)
Inductive select_case :=
| CtxDone
| TickerC (now : Z).

Definition cleanup_loop (c : select_case) (m : Middleware) : Middleware :=
  if cleanup_running m then
    match c with
    | CtxDone =>
        if ctx_done m
        then mkMiddleware (config m) (store m) (ctx_done m) false
        else m
    | TickerC now =>
        with_store m
          (cleanupInactiveLimiters now (InactiveTTL (config m)) (store m))
    end
  else m.

(** Everything that can happen to a middleware once [RateLimiter] has
    returned: a request is served, or the goroutine takes a turn.  The
    [cancel] function of the context is dropped inside [RateLimiter], so
    no operation cancels the context. *)
Inductive operation :=
| Serve (now t : Z) (r : Request)
| Select (c : select_case).

Definition perform (o : operation) (m : Middleware) : Middleware :=
  match o with
  | Serve now t r =>
      match decision (config m) now t r (store m) with
      | Some (_, st') => with_store m st'
      | None => m
      end
  | Select c => cleanup_loop c m
  end.

Definition run (ops : list operation) (m : Middleware) : Middleware :=
  foldl (fun m o => perform o m) m ops.

(** *** Concurrent callers of [getLimiter]

    A caller is before the read-locked section, before the write-locked
    section, or has returned.  A schedule names the caller that runs its
    next locked section; the sections themselves are atomic. *)
Inductive caller :=
| AtRLock (now : Z)
| AtLock (now : Z)
| Returned (l : nat).

Definition caller_step (rps : Q) (burst : Z) (key : string) (c : caller)
    (st : @Store Limiter) : caller * @Store Limiter :=
  match c with
  | AtRLock now =>
      match getLimiter_rlocked now key st with
      | (Some l, st') => (Returned l, st')
      | (None, st') => (AtLock now, st')
      end
  | AtLock now =>
      let '(l, st') := getLimiter_locked NewLimiter rps burst now key st in
      (Returned l, st')
  | Returned l => (Returned l, st)
  end.

Definition schedule_step (rps : Q) (burst : Z) (key : string) (i : nat)
    (cs : list caller * @Store Limiter) : list caller * @Store Limiter :=
  match cs.1 !! i with
  | Some c =>
      let '(c', st') := caller_step rps burst key c cs.2 in
      (<[i := c']> cs.1, st')
  | None => cs
  end.

Definition run_schedule (rps : Q) (burst : Z) (key : string)
    (sched : list nat) (cs : list caller * @Store Limiter)
    : list caller * @Store Limiter :=
  foldl (fun cs i => schedule_step rps burst key i cs) cs sched.

Definition entering (c : caller) : Prop :=
  match c with AtRLock _ => True | _ => False end.

Definition returned (c : caller) : Prop :=
  match c with Returned _ => True | _ => False end.

(** Where a run that started in a store without the key can be.  Before
    the construction nobody has returned and nothing was constructed;
    after it the key is bound to the one new limiter, and whoever returned
    holds that limiter. *)
Definition race_invariant (key : string) (st0 : @Store Limiter)
    (p : list caller * @Store Limiter) : Prop :=
  (limiters p.2 !! key = None /\ heap p.2 = heap st0 /\
   Forall (fun c => ~ returned c) p.1)
  \/
  (exists entry, limiters p.2 !! key = Some entry /\
     limiter entry = constructed st0 /\
     constructed p.2 = S (constructed st0) /\
     Forall (fun c => returned c -> c = Returned (constructed st0)) p.1).

(** The construction in the specification's words: an invalid
    configuration is a failure reported to the caller. *)
Definition spec_invalid (cfg : RateLimiterConfig) : bool :=
  Qle_bool (RequestsPerSecond cfg) 0 || (Burst cfg <=? 0).

Definition spec_RateLimiter (cfg : RateLimiterConfig) : option Middleware :=
  if spec_invalid cfg then None else Some (RateLimiter cfg).
End Middleware.

(** ** Histories of one registry *)

Section RegistryHistory.
Context {Limiter : Type}.
Variable NewLimiter : Q -> Z -> Z -> Limiter.

(** A lookup of a key through [getLimiter], or a tick of the cleanup
    ticker, each with its clock reading. *)
Inductive registry_event :=
| Access (key : string) (now : Z)
| Tick (now : Z).

Definition registry_step (rps : Q) (burst ttl : Z) (ev : registry_event)
    (st : @Store Limiter) : @Store Limiter :=
  match ev with
  | Access key now => (getLimiter NewLimiter rps burst now key st).2
  | Tick now => cleanupInactiveLimiters now ttl st
  end.

Definition registry_run (rps : Q) (burst ttl : Z)
    (evs : list registry_event) (st : @Store Limiter) : @Store Limiter :=
  foldl (fun st ev => registry_step rps burst ttl ev st) st evs.

(** Successive calls of [getLimiter] for one key: the limiters returned
    and the final store. *)
Fixpoint getLimiter_calls (rps : Q) (burst : Z) (key : string)
    (nows : list Z) (st : @Store Limiter) : list nat * @Store Limiter :=
  match nows with
  | [] => ([], st)
  | now :: nows' =>
      let '(l, st') := getLimiter NewLimiter rps burst now key st in
      let '(ls, st'') := getLimiter_calls rps burst key nows' st' in
      (l :: ls, st'')
  end.

(** At every tick of the history, the latest access to [key] (at [last]
    when the history starts) is at most [ttl / 2] old. *)
Fixpoint accessed_every_half_ttl (ttl : Z) (key : string) (last : Z)
    (evs : list registry_event) : Prop :=
  match evs with
  | [] => True
  | Access k now :: evs' =>
      if decide (k = key) then accessed_every_half_ttl ttl key now evs'
      else accessed_every_half_ttl ttl key last evs'
  | Tick now :: evs' =>
      Int64.in_range (now - ttl) /\ now - last <= ttl / 2 /\
      accessed_every_half_ttl ttl key last evs'
  end.

(** The eviction in the specification's words: exactly the entries last
    used before the cutoff go. *)
Definition spec_evict (c : Z) (m : gmap string limiterEntry)
    : gmap string limiterEntry :=
  filter (fun kv => ~ (lastAccess kv.2 < c)) m.
End RegistryHistory.

(** ** The token bucket *)

Module TokenBucket.
Local Open Scope Q_scope.

(** Modelled from the spec: the bucket is [rate.Limiter] of
    [golang.org/x/time/rate], whose source is not part of this
    repository's files.  Section 3 of the specification gives its state:
    capacity, refill rate per second, current tokens, time of the last
    refill.  Times are in seconds. *)
Record t := mk {
  capacity : Q;
  refillRatePerSecond : Q;
  tokens : Q;
  lastRefill : Q
}.

(** Modelled from the spec: the constructor of [rate.Limiter] is missing
    with it.  Section 4.2: tokens start at the capacity, the last refill at
    the time of creation. *)
Definition New (capacity rate now : Q) : t := mk capacity rate capacity now.

(** Modelled from the spec: step 1 of [Allow] in section 4.2, the token
    count after the refill at [now]. *)
Definition refill (b : t) (now : Q) : Q :=
  Qmin (capacity b) (tokens b + (now - lastRefill b) * refillRatePerSecond b).

(** Modelled from the spec: [Allow] of [rate.Limiter] is missing with it.
    Section 4.2: refill, then admit and take one token when there is one,
    else reject. *)
Definition Allow (b : t) (now : Q) : bool * t :=
  let tk := refill b now in
  if Qle_bool 1 tk
  then (true, mk (capacity b) (refillRatePerSecond b) (tk - 1) now)
  else (false, mk (capacity b) (refillRatePerSecond b) tk now).

(** A series of [Allow] calls at the given times: the decisions in order
    and the final state. *)
Fixpoint Allows (b : t) (times : list Q) : list bool * t :=
  match times with
  | [] => ([], b)
  | now :: times' =>
      let '(ok, b') := Allow b now in
      let '(oks, b'') := Allows b' times' in
      (ok :: oks, b'')
  end.

(** The states a bucket is observed in during such a series. *)
Fixpoint observations (b : t) (times : list Q) : list t :=
  match times with
  | [] => [b]
  | now :: times' => b :: observations (Allow b now).2 times'
  end.

(** Clock readings never go back. *)
Fixpoint monotone (last : Q) (times : list Q) : Prop :=
  match times with
  | [] => True
  | now :: times' => last <= now /\ monotone now times'
  end.

Definition invariant (b : t) : Prop := 0 <= tokens b /\ tokens b <= capacity b.

(** Seconds of a nanosecond clock reading. *)
Definition seconds (ns : Z) : Q := inject_Z ns / inject_Z Duration.Second.

(** The bucket as the limiter of the registry: [rate.NewLimiter(limit,
    burst)] makes a bucket of capacity [burst] refilled at [limit]. *)
Definition NewLimiter (limit : Q) (burst : Z) (now : Z) : t :=
  New (inject_Z burst) limit (seconds now).

Definition AllowAt (b : t) (now : Z) : bool * t := Allow b (seconds now).
End TokenBucket.

(** An instrumented downstream handler: it counts its invocations. *)
Definition counted {D : Type} (next : Handler D) : Handler (D * nat) :=
  fun r wd =>
    let '(w', d') := next r (wd.1, wd.2.1) in
    (w', (d', S wd.2.2)).

(** ** Sample instances

    Stand-ins for the library functions the development is generic in, and
    sample data, for running the definitions on concrete requests.  They
    cover the inputs of the examples only: dotted IPv4 addresses, blanks and
    tabs as white space, [host:port] peer addresses. *)

Module Sample.
Definition is_blank (c : ascii) : bool :=
  Ascii.eqb c " "%char || Ascii.eqb c "009"%char.

Fixpoint trim_left (s : string) : string :=
  match s with
  | EmptyString => EmptyString
  | String c s' => if is_blank c then trim_left s' else s
  end.

Fixpoint trim_right (s : string) : string :=
  match s with
  | EmptyString => EmptyString
  | String c s' =>
      let r := trim_right s' in
      if is_blank c && negb (nonempty r) then EmptyString else String c r
  end.

Definition TrimSpace (s : string) : string := trim_right (trim_left s).

Definition digit (c : ascii) : option Z :=
  let n := Z.of_N (N_of_ascii c) in
  if (48 <=? n) && (n <=? 57) then Some (n - 48) else None.

Fixpoint decimal (s : string) (acc : Z) : option Z :=
  match s with
  | EmptyString => Some acc
  | String c s' =>
      match digit c with
      | Some d => decimal s' (10 * acc + d)
      | None => None
      end
  end.

Definition octet (s : string) : option Z :=
  if nonempty s && (String.length s <=? 3)%nat then
    match decimal s 0 with
    | Some n => if n <=? 255 then Some n else None
    | None => None
    end
  else None.

Definition ParseIP (s : string) : option (list Z) :=
  match Split s "."%char with
  | [a; b; c; d] =>
      match octet a, octet b, octet c, octet d with
      | Some a', Some b', Some c', Some d' => Some [a'; b'; c'; d']
      | _, _, _, _ => None
      end
  | _ => None
  end.

Fixpoint split_last_colon (s : string) : option (string * string) :=
  match s with
  | EmptyString => None
  | String c s' =>
      match split_last_colon s' with
      | Some (h, p) => Some (String c h, p)
      | None => if Ascii.eqb c ":"%char then Some (EmptyString, s') else None
      end
  end.

Definition SplitHostPort (s : string) : string * string * option string :=
  match split_last_colon s with
  | Some (h, p) => (h, p, None)
  | None => (EmptyString, EmptyString, Some "missing port in address"%string)
  end.

Definition request (xff xri : list string) (peer : string) : Request :=
  mkRequest
    (<["X-Forwarded-For"%string := xff]> (<["X-Real-IP"%string := xri]> ∅))
    peer ∅.

(** A registry of two keys, one last used twenty minutes before [now],
    one a minute before, with the default time to live. *)
Definition now : Z := 1700000000 * Duration.Second.
Definition ttl : Z := 10 * Duration.Minute.

Definition bucket : TokenBucket.t := TokenBucket.NewLimiter 10 20 0.

Definition registry : @Store TokenBucket.t :=
  mkStore
    (<["203.0.113.1"%string := mkEntry 0 (now - 20 * Duration.Minute)]>
       (<["198.51.100.7"%string := mkEntry 1 (now - Duration.Minute)]> ∅))
    [bucket; bucket].

(** Twenty-five calls a millisecond apart, the first a second after the
    bucket was made. *)
Definition burst_times : list Q :=
  map (fun k => 1 + inject_Z (Z.of_nat k) / 1000)%Q (seq 0 25).

(** A configuration with no rate and no burst. *)
Definition zero_config : RateLimiterConfig :=
  mkConfig 0 0 (GetRealIP SplitHostPort) 0 0.

(** A limiter that rejects everything and one that admits everything. *)
Definition deny (l : unit) (t : Z) : bool * unit := (false, l).
Definition grant (l : unit) (t : Z) : bool * unit := (true, l).
Definition unit_limiter (rps : Q) (burst : Z) (now : Z) : unit := tt.

(** A downstream handler that answers 200 with a body. *)
Definition ok_handler : Handler unit :=
  fun r wd => (Write "ok" (WriteHeader StatusOK wd.1), wd.2).
End Sample.

(** ** The other middleware of the package

    [RequestID], [Logger], [Recoverer], [SecureHeaders], [APIVersion] and
    [ContentTypeJSON] wrap a handler they know nothing about.  What such a
    handler does to a request is given as the calls it makes, in order, on
    its response writer (and, for the middleware, on the logger), and the
    value it panics with if it does.  The parts of a request the rate
    limiter does not read are added to [Request] in [FullRequest]. *)

Record FullRequest := mkFull {
  base : Request;
  Method : string;
  URLPath : string;
  RawQuery : string;
  TLS : bool
}.

Definition with_base (r : FullRequest) (b : Request) : FullRequest :=
  mkFull b (Method r) (URLPath r) (RawQuery r) (TLS r).

Inductive field_value :=
| VString (s : string)
| VInt (z : Z).

Inductive call :=
| CallSetHeader (key value : string)
| CallWriteHeader (code : Z)
| CallWrite (b : string)
| CallLog (level msg : string) (fields : list (string * field_value)).

Record behaviour := mkBehaviour {
  calls : list call;
  panicked : option string
}.

Definition THandler : Type := FullRequest -> behaviour.

(** The effect of the calls on a response. *)
Definition apply_call (c : call) (w : ResponseWriter) : ResponseWriter :=
  match c with
  | CallSetHeader key value => SetHeader key value w
  | CallWriteHeader code => WriteHeader code w
  | CallWrite b => Write b w
  | CallLog _ _ _ => w
  end.

Definition apply_calls (cs : list call) (w : ResponseWriter) : ResponseWriter :=
  foldl (fun w c => apply_call c w) w cs.

Definition is_log (c : call) : bool :=
  match c with CallLog _ _ _ => true | _ => false end.

Definition is_WriteHeader (c : call) : bool :=
  match c with CallWriteHeader _ => true | _ => false end.

Definition writes_response (c : call) : bool :=
  match c with CallWriteHeader _ | CallWrite _ => true | _ => false end.

(** The first value logged under a key. *)
Fixpoint field (key : string) (fields : list (string * field_value))
    : option field_value :=
  match fields with
  | [] => None
  | (k, v) :: fields' => if String.eqb k key then Some v else field key fields'
  end.

(** A handler given by its calls, as an [http.Handler] on responses; the
    request it sees is [fr] with the parts the outer handler passes on. *)
Definition serve {D : Type} (h : THandler) (fr : FullRequest) : Handler D :=
  fun r wd => (apply_calls (calls (h (with_base fr r))) wd.1, wd.2).

(** The value the calls leave a header with, if they set it: the last
    [Set] wins. *)
Fixpoint last_set (key : string) (cs : list call) : option string :=
  match cs with
  | [] => None
  | c :: cs' =>
      match last_set key cs' with
      | Some v => Some v
      | None =>
          match c with
          | CallSetHeader k v => if String.eqb k key then Some v else None
          | _ => None
          end
      end
  end.

Definition RequestIDHeader : string := "X-Request-ID".

Definition GetRequestID (ctx : gmap string string) : string :=
  match ctx !! RequestIDKey with
  | Some id => id
  | None => ""%string
  end.

(** [RequestID]; [uuid] is what [uuid.New().String()] returns. *)
Definition RequestID (uuid : string) (next : THandler) : THandler :=
  fun r =>
    let requestID :=
      let requestID := Header_Get (Header (base r)) RequestIDHeader in
      if nonempty requestID then requestID else uuid in
    let r' := with_base r (WithValue RequestIDKey requestID (base r)) in
    let inner := next r' in
    mkBehaviour (CallSetHeader RequestIDHeader requestID :: calls inner)
                (panicked inner).

(** [responseWriter]: the status it has captured and whether anything was
    written.  The embedded writer is the one the forwarded calls go to. *)
Record responseWriter := mkResponseWriter {
  rw_statusCode : Z;
  rw_written : bool
}.

(** A call on the wrapper: the calls it forwards to the embedded writer
    and the wrapper afterwards.  [Header] is the embedded writer's own
    method, and the logger is no part of the writer. *)
Definition responseWriter_call (c : call) (rw : responseWriter)
    : list call * responseWriter :=
  match c with
  | CallWriteHeader code =>
      if rw_written rw then ([], rw)
      else ([CallWriteHeader code], mkResponseWriter code true)
  | CallWrite b =>
      ([CallWrite b], mkResponseWriter (rw_statusCode rw) true)
  | CallSetHeader _ _ | CallLog _ _ _ => ([c], rw)
  end.

Fixpoint responseWriter_calls (cs : list call) (rw : responseWriter)
    : list call * responseWriter :=
  match cs with
  | [] => ([], rw)
  | c :: cs' =>
      let '(fwd, rw') := responseWriter_call c rw in
      let '(fwd', rw'') := responseWriter_calls cs' rw' in
      (fwd ++ fwd', rw'')
  end.

(** The wrapper agrees with the writer underneath: on whether something
    was written, and on the status once it was. *)
Definition tracks (rw : responseWriter) (w : ResponseWriter) : Prop :=
  rw_written rw = written w /\
  rw_statusCode rw = statusCode w /\
  (written w = false -> statusCode w = StatusOK).

Definition StatusInternalServerError : Z := 500.
Definition StatusUnsupportedMediaType : Z := 415.

Definition internal_error_body : string :=
  ("{" ++ dq ++ "success" ++ dq ++ ":false," ++ dq ++ "error" ++ dq ++ ":{"
   ++ dq ++ "code" ++ dq ++ ":" ++ dq ++ "INTERNAL_ERROR" ++ dq ++ ","
   ++ dq ++ "message" ++ dq ++ ":" ++ dq
   ++ "An unexpected error occurred" ++ dq ++ "}}")%string.

Definition unsupported_media_type_body : string :=
  ("{" ++ dq ++ "success" ++ dq ++ ":false," ++ dq ++ "error" ++ dq ++ ":{"
   ++ dq ++ "code" ++ dq ++ ":" ++ dq ++ "UNSUPPORTED_MEDIA_TYPE" ++ dq ++ ","
   ++ dq ++ "message" ++ dq ++ ":" ++ dq
   ++ "Content-Type must be application/json" ++ dq ++ "}}")%string.

Section Chain.
Variable SplitHostPort : string -> string * string * option string.
(** [mime.ParseMediaType]: media type, parameters, error. *)
Variable ParseMediaType :
  string -> string * gmap string string * option string.

(** The record [Logger] writes for a request answered with [status]. *)
Definition Logger_record (latency : Z) (r : FullRequest) (status : Z) : call :=
  CallLog "info" "HTTP Request"
    [("request_id"%string, VString (GetRequestID (Context (base r))));
     ("method"%string, VString (Method r));
     ("path"%string, VString (URLPath r));
     ("query"%string, VString (RawQuery r));
     ("status"%string, VInt status);
     ("latency_ms"%string, VInt (Z.quot latency 1000000));
     ("client_ip"%string, VString (GetRealIP SplitHostPort (base r)));
     ("user_agent"%string,
      VString (Header_Get (Header (base r)) "User-Agent"))].

(** [Logger]; [latency] is what [time.Since(start)] returns, a duration.
    The handler runs on a [responseWriter] that starts at status 200; when
    it panics the statements after it do not run. *)
Definition Logger (latency : Z) (next : THandler) : THandler :=
  fun r =>
    let inner := next r in
    let '(fwd, ww) :=
      responseWriter_calls (calls inner) (mkResponseWriter StatusOK false) in
    match panicked inner with
    | Some v => mkBehaviour fwd (Some v)
    | None =>
        mkBehaviour (fwd ++ [Logger_record latency r (rw_statusCode ww)]) None
    end.

(** What the deferred function of [Recoverer] does with a panic [err]. *)
Definition Recoverer_recover (stack : string) (write_err : option string)
    (r : FullRequest) (err : string) : list call :=
  let requestID := GetRequestID (Context (base r)) in
  [CallLog "error" "Panic recovered"
     [("request_id"%string, VString requestID);
      ("error"%string, VString err);
      ("path"%string, VString (URLPath r));
      ("stack"%string, VString stack)];
   CallSetHeader "Content-Type" "application/json";
   CallWriteHeader StatusInternalServerError;
   CallWrite internal_error_body] ++
  match write_err with
  | Some e =>
      [CallLog "error" "Failed to write error response"
         [("request_id"%string, VString requestID);
          ("error"%string, VString e);
          ("path"%string, VString (URLPath r))]]
  | None => []
  end.

(** [Recoverer]; [stack] is what [debug.Stack()] returns and [write_err]
    the error of the [Write] of the error body, if it fails. *)
Definition Recoverer (stack : string) (write_err : option string)
    (next : THandler) : THandler :=
  fun r =>
    let inner := next r in
    match panicked inner with
    | None => inner
    | Some err =>
        mkBehaviour (calls inner ++ Recoverer_recover stack write_err r err)
                    None
    end.

Definition SecureHeaders (next : THandler) : THandler :=
  fun r =>
    let inner := next r in
    mkBehaviour
      ([CallSetHeader "X-Content-Type-Options" "nosniff";
        CallSetHeader "X-Frame-Options" "DENY"] ++
       (if TLS r
        then [CallSetHeader "Strict-Transport-Security"
                "max-age=31536000; includeSubDomains"]
        else []) ++
       [CallSetHeader "Content-Security-Policy"
          "default-src 'none'; frame-ancestors 'none'";
        CallSetHeader "Referrer-Policy" "strict-origin-when-cross-origin"] ++
       calls inner)
      (panicked inner).

Definition APIVersion (version : string) (next : THandler) : THandler :=
  fun r =>
    let inner := next r in
    mkBehaviour (CallSetHeader "X-API-Version" version :: calls inner)
                (panicked inner).

Definition is_write_method (m : string) : bool :=
  String.eqb m "POST" || String.eqb m "PUT" || String.eqb m "PATCH".

(** Whether [ContentTypeJSON] turns the request away. *)
Definition ContentTypeJSON_rejects (r : FullRequest) : bool :=
  if is_write_method (Method r) then
    let contentType := Header_Get (Header (base r)) "Content-Type" in
    if nonempty contentType then
      let '(mediaType, _, err) := ParseMediaType contentType in
      bool_decide (is_Some err) || negb (String.eqb mediaType "application/json")
    else false
  else false.

Definition ContentTypeJSON (next : THandler) : THandler :=
  fun r =>
    if ContentTypeJSON_rejects r then
      mkBehaviour
        [CallSetHeader "Content-Type" "application/json";
         CallWriteHeader StatusUnsupportedMediaType;
         CallWrite unsupported_media_type_body]
        None
    else
      let inner := next r in
      mkBehaviour
        (CallSetHeader "Content-Type" "application/json" :: calls inner)
        (panicked inner).
End Chain.

(** Of the decisions on a series of requests, those on the requests of
    one key. *)
Fixpoint own_decisions (cfg : RateLimiterConfig) (key : string)
    (reqs : list (Z * Z * Request)) (oks : list bool) : list bool :=
  match reqs, oks with
  | q :: reqs', ok :: oks' =>
      if decide (KeyFunc cfg q.2 = key)
      then ok :: own_decisions cfg key reqs' oks'
      else own_decisions cfg key reqs' oks'
  | _, _ => []
  end.

(** ** Registries in which keys do not share limiters *)

Definition limiters_injective {Limiter : Type} (st : @Store Limiter) : Prop :=
  forall k1 k2 e1 e2,
    limiters st !! k1 = Some e1 -> limiters st !! k2 = Some e2 ->
    limiter e1 = limiter e2 -> k1 = k2.

(** ** More sample data *)

Module Fixture.
(** A write request with a content type that is not JSON, from behind a
    proxy whose forwarded list is no address. *)
Definition post : FullRequest :=
  mkFull
    (mkRequest
       (<["Content-Type"%string := ["text/plain"%string]]>
          (<["X-Forwarded-For"%string := ["not-an-ip"%string]]>
             (<["X-Real-IP"%string := ["198.51.100.2"%string]]>
                (<["X-Request-ID"%string := ["req-7"%string]]> ∅))))
       "192.0.2.9:4711" ∅)
    "POST" "/orders" "" true.

(** A read request with no headers. *)
Definition get : FullRequest :=
  mkFull (Sample.request [] [] "192.0.2.9:4711") "GET" "/health" "" false.

(** A request without a peer address. *)
Definition unknown_peer : Request := mkRequest ∅ "" ∅.

(** The media type is what stands before the first semicolon. *)
Definition ParseMediaType (s : string)
    : string * gmap string string * option string :=
  (Sample.TrimSpace (List.hd ""%string (Split s ";"%char)), ∅, None).

(** A handler that answers 201, one that writes a body, then a status, and
    one that panics at once. *)
Definition created : THandler :=
  fun _ =>
    mkBehaviour
      [CallSetHeader "Location" "/orders/1"; CallWriteHeader 201;
       CallWrite "{}"]
      None.

Definition late_status : list call :=
  [CallWrite "partial"; CallWriteHeader 404; CallWriteHeader 500].

Definition crash : THandler := fun _ => mkBehaviour [] (Some "boom"%string).

(** A middleware that has served one request of each of two clients. *)
Definition served : @Middleware unit :=
  run Sample.unit_limiter Sample.grant
    [Serve Sample.now Sample.now
       (Sample.request ["203.0.113.1"%string] [] "192.0.2.9:4711");
     Serve Sample.now Sample.now
       (Sample.request ["198.51.100.7"%string] [] "192.0.2.9:4711")]
    (RateLimiter
       (mkConfig 10 20
          (fun r => Header_Get (Header r) "X-Forwarded-For") 0 0)).

(** A configuration with a negative time to live. *)
Definition negative_ttl : RateLimiterConfig :=
  mkConfig 10 20 (GetRealIP Sample.SplitHostPort) 0 (- Duration.Minute).
End Fixture.

(** * Properties *)

(** ** Machine integers *)

Lemma Int64_wrap_in_range z : Int64.in_range (Int64.wrap z).
Proof.
  unfold Int64.in_range, Int64.wrap, Int64.min_int, Int64.max_int.
  pose proof (Z.mod_pos_bound (z + 2 ^ 63) (2 ^ 64) ltac:(lia)). lia.
Qed.

Lemma Int64_wrap_id z : Int64.in_range z -> Int64.wrap z = z.
Proof.
  unfold Int64.in_range, Int64.wrap, Int64.min_int, Int64.max_int. intros Hz.
  rewrite Z.mod_small; lia.
Qed.

Lemma Int64_sub_exact a b : Int64.in_range (a - b) -> Int64.sub a b = a - b.
Proof. apply Int64_wrap_id. Qed.

(** Timestamps after the epoch and non-negative durations subtract without
    overflow. *)
Lemma Int64_sub_nonneg_in_range a b :
  0 <= a <= Int64.max_int -> 0 <= b <= Int64.max_int -> Int64.in_range (a - b).
Proof. unfold Int64.in_range, Int64.min_int, Int64.max_int. lia. Qed.

(** ** The cleanup pass *)

Section CleanupFacts.
Context {Limiter : Type}.
Implicit Types (st : @Store Limiter) (m : gmap string limiterEntry).

(** The pass over a part [m] of the map [m0] has deleted from [m0] the
    stale entries of [m] and nothing else. *)
Lemma cleanup_fold_lookup c m0 m key :
  map_fold (cleanup_visit c) m0 m !! key =
    match m !! key with
    | Some entry => if lastAccess entry <? c then None else m0 !! key
    | None => m0 !! key
    end.
Proof.
  revert key.
  apply (map_fold_weak_ind (fun live part => forall key,
    live !! key = match part !! key with
                  | Some entry => if lastAccess entry <? c then None else m0 !! key
                  | None => m0 !! key
                  end)).
  - intros key. by rewrite lookup_empty.
  - intros i x part live Hfresh IH key. unfold cleanup_visit.
    destruct (decide (i = key)) as [->|Hne].
    + rewrite lookup_insert_eq. specialize (IH key). rewrite Hfresh in IH.
      destruct (lastAccess x <? c); [apply lookup_delete_eq | exact IH].
    + rewrite lookup_insert_ne by done.
      destruct (lastAccess x <? c); [rewrite lookup_delete_ne by done|]; apply IH.
Qed.

Lemma cleanup_lookup now ttl st key :
  limiters (cleanupInactiveLimiters now ttl st) !! key =
    match limiters st !! key with
    | Some entry =>
        if lastAccess entry <? cutoff now ttl then None else Some entry
    | None => None
    end.
Proof.
  unfold cleanupInactiveLimiters. cbn [limiters].
  rewrite cleanup_fold_lookup.
  destruct (limiters st !! key) as [entry|] eqn:Hk; [|done].
  by destruct (lastAccess entry <? cutoff now ttl).
Qed.

Lemma cleanup_heap now ttl st :
  heap (cleanupInactiveLimiters now ttl st) = heap st.
Proof. reflexivity. Qed.

Lemma cleanup_stale now ttl st key entry :
  limiters st !! key = Some entry -> lastAccess entry < cutoff now ttl ->
  limiters (cleanupInactiveLimiters now ttl st) !! key = None.
Proof.
  intros Hk Hlt. rewrite cleanup_lookup, Hk.
  destruct (Z.ltb_spec (lastAccess entry) (cutoff now ttl)); [done | lia].
Qed.

Lemma cleanup_recent now ttl st key entry :
  limiters st !! key = Some entry -> cutoff now ttl <= lastAccess entry ->
  limiters (cleanupInactiveLimiters now ttl st) !! key = Some entry.
Proof.
  intros Hk Hge. rewrite cleanup_lookup, Hk.
  destruct (Z.ltb_spec (lastAccess entry) (cutoff now ttl)); [lia | done].
Qed.

Lemma cleanup_only_deletes now ttl st key entry :
  limiters (cleanupInactiveLimiters now ttl st) !! key = Some entry ->
  limiters st !! key = Some entry.
Proof.
  rewrite cleanup_lookup. destruct (limiters st !! key) as [e|]; [|done].
  by destruct (lastAccess e <? cutoff now ttl).
Qed.

Lemma cleanup_is_spec_evict now ttl st :
  limiters (cleanupInactiveLimiters now ttl st) =
  spec_evict (cutoff now ttl) (limiters st).
Proof.
  apply map_eq. intros key. rewrite cleanup_lookup. unfold spec_evict.
  destruct (limiters st !! key) as [entry|] eqn:Hk.
  - destruct (Z.ltb_spec (lastAccess entry) (cutoff now ttl)) as [Hlt|Hge].
    + symmetry. apply map_lookup_filter_None. right. intros x Hx.
      rewrite Hk in Hx. injection Hx as <-. cbn. lia.
    + symmetry. apply map_lookup_filter_Some. split; [done|]. cbn. lia.
  - symmetry. apply map_lookup_filter_None. by left.
Qed.

Lemma cleanup_wf now ttl st :
  wf_store st -> wf_store (cleanupInactiveLimiters now ttl st).
Proof.
  intros Hwf key entry Hk. rewrite cleanup_heap.
  eapply Hwf, cleanup_only_deletes, Hk.
Qed.
End CleanupFacts.

(** ** Lookups *)

Section GetLimiterFacts.
Context {Limiter : Type}.
Variable NewLimiter : Q -> Z -> Z -> Limiter.
Variables (rps : Q) (burst : Z).
Implicit Types (st : @Store Limiter) (key : string).

Lemma getLimiter_present now key st entry :
  limiters st !! key = Some entry ->
  getLimiter NewLimiter rps burst now key st =
    (limiter entry,
     mkStore (<[key := mkEntry (limiter entry) now]> (limiters st)) (heap st)).
Proof. intros Hk. unfold getLimiter, getLimiter_rlocked. by rewrite Hk. Qed.

Lemma getLimiter_absent now key st :
  limiters st !! key = None ->
  getLimiter NewLimiter rps burst now key st =
    (constructed st,
     mkStore (<[key := mkEntry (constructed st) now]> (limiters st))
             (heap st ++ [NewLimiter rps burst now])).
Proof.
  intros Hk. unfold getLimiter, getLimiter_rlocked.
  rewrite Hk. unfold getLimiter_locked. rewrite Hk. reflexivity.
Qed.

(** What every call leaves behind, whichever path it took. *)
Lemma getLimiter_post now key st :
  let '(l, st') := getLimiter NewLimiter rps burst now key st in
  limiters st' !! key = Some (mkEntry l now) /\
  (forall k, k <> key -> limiters st' !! k = limiters st !! k) /\
  (exists new, heap st' = heap st ++ new /\
     match limiters st !! key with
     | Some entry => new = [] /\ l = limiter entry
     | None => new = [NewLimiter rps burst now] /\ l = constructed st
     end).
Proof.
  destruct (limiters st !! key) as [entry|] eqn:Hk.
  - rewrite (getLimiter_present _ _ _ _ Hk). cbn. split_and!.
    + apply lookup_insert_eq.
    + intros k Hne. by apply lookup_insert_ne.
    + exists []. by rewrite app_nil_r.
  - rewrite (getLimiter_absent _ _ _ Hk). cbn. split_and!.
    + apply lookup_insert_eq.
    + intros k Hne. by apply lookup_insert_ne.
    + by eexists.
Qed.

Lemma getLimiter_wf now key st :
  wf_store st ->
  wf_store (getLimiter NewLimiter rps burst now key st).2 /\
  ((getLimiter NewLimiter rps burst now key st).1
     < length (heap (getLimiter NewLimiter rps burst now key st).2))%nat.
Proof.
  intros Hwf. pose proof (getLimiter_post now key st) as Hpost.
  destruct (getLimiter NewLimiter rps burst now key st) as [l st'].
  destruct Hpost as (Hkey & Hother & new & Hheap & Hnew). cbn.
  assert (l < length (heap st'))%nat as Hl.
  { rewrite Hheap, length_app.
    destruct (limiters st !! key) as [entry|] eqn:Hk.
    - destruct Hnew as [-> ->]. apply Hwf in Hk. cbn. lia.
    - destruct Hnew as [-> ->]. unfold constructed. cbn. lia. }
  split; [|done]. intros k e Hke.
  destruct (decide (k = key)) as [->|Hne].
  - rewrite Hkey in Hke. by injection Hke as <-.
  - rewrite Hother in Hke by done. apply Hwf in Hke.
    rewrite Hheap, length_app. lia.
Qed.

(** Successive calls for a key that is present construct nothing and all
    return the limiter of the entry. *)
Lemma getLimiter_calls_present key nows st entry :
  limiters st !! key = Some entry ->
  constructed (getLimiter_calls NewLimiter rps burst key nows st).2
    = constructed st /\
  Forall (eq (limiter entry))
    (getLimiter_calls NewLimiter rps burst key nows st).1.
Proof.
  revert st entry. induction nows as [|now nows IH]; intros st entry Hk.
  - by split.
  - cbn. rewrite (getLimiter_present _ _ _ _ Hk).
    set (st1 := mkStore _ _).
    specialize (IH st1 (mkEntry (limiter entry) now)).
    destruct (getLimiter_calls NewLimiter rps burst key nows st1) as [ls st2].
    destruct IH as [IHc IHl]; [apply lookup_insert_eq|].
    cbn in *. split; [done|]. by constructor.
Qed.

Lemma getLimiter_calls_absent key now nows st :
  limiters st !! key = None ->
  constructed (getLimiter_calls NewLimiter rps burst key (now :: nows) st).2
    = S (constructed st) /\
  Forall (eq (constructed st))
    (getLimiter_calls NewLimiter rps burst key (now :: nows) st).1.
Proof.
  intros Hk. cbn. rewrite (getLimiter_absent _ _ _ Hk).
  set (st1 := mkStore _ _).
  pose proof (getLimiter_calls_present key nows st1
                (mkEntry (constructed st) now)) as Hrest.
  destruct (getLimiter_calls NewLimiter rps burst key nows st1) as [ls st2].
  destruct Hrest as [Hc Hl]; [apply lookup_insert_eq|].
  cbn in *. split.
  - rewrite Hc. unfold constructed, st1. cbn. rewrite length_app. cbn. lia.
  - by constructor.
Qed.
End GetLimiterFacts.

(** ** Concurrent lookups of one key *)

Section ScheduleFacts.
Context {Limiter : Type}.
Variable NewLimiter : Q -> Z -> Z -> Limiter.
Variables (rps : Q) (burst : Z) (key : string).
Implicit Types (st : @Store Limiter) (cs : list caller).

Lemma race_invariant_init st0 cs :
  limiters st0 !! key = None -> Forall entering cs ->
  race_invariant key st0 (cs, st0).
Proof.
  intros Hk Hcs. left. split_and!; [done..|].
  eapply Forall_impl; [exact Hcs|]. intros c Hc Hr. by destruct c.
Qed.

Lemma race_invariant_step st0 i p :
  race_invariant key st0 p ->
  race_invariant key st0 (schedule_step NewLimiter rps burst key i p).
Proof.
  destruct p as [cs st]. unfold schedule_step. cbn [fst snd].
  destruct (cs !! i) as [c|] eqn:Hi; [|done].
  intros [(Hk & Hheap & Hcs) | (entry & Hk & Hl & Hn & Hcs)]; cbn [fst snd] in *.
  - destruct c as [now|now|l]; cbn.
    + unfold getLimiter_rlocked. rewrite Hk. left. cbn. split_and!; [done..|].
      apply Forall_insert; [done | by intros []].
    + unfold getLimiter_locked. rewrite Hk. right. cbn.
      exists (mkEntry (length (heap st)) now). split_and!.
      * apply lookup_insert_eq.
      * unfold constructed. by rewrite Hheap.
      * unfold constructed. cbn. rewrite length_app, Hheap. cbn. lia.
      * apply Forall_insert.
        -- eapply Forall_impl; [exact Hcs|]. by intros c Hc Hr.
        -- intros _. unfold constructed. by rewrite Hheap.
    + exfalso. rewrite Forall_lookup in Hcs. by apply (Hcs i _ Hi).
  - assert (Forall (fun c => returned c -> c = Returned (constructed st0))
              (<[i := Returned (limiter entry)]> cs)) as Hcs'.
    { apply Forall_insert; [done|]. intros _. by rewrite Hl. }
    destruct c as [now|now|l]; cbn.
    + unfold getLimiter_rlocked. rewrite Hk. right. cbn.
      exists (mkEntry (limiter entry) now). split_and!; [|done..].
      apply lookup_insert_eq.
    + unfold getLimiter_locked. rewrite Hk. right. cbn.
      exists (mkEntry (limiter entry) now). split_and!; [|done..].
      apply lookup_insert_eq.
    + right. exists entry. split_and!; [done..|].
      by rewrite list_insert_id.
Qed.

Lemma race_invariant_run st0 sched p :
  race_invariant key st0 p ->
  race_invariant key st0 (run_schedule NewLimiter rps burst key sched p).
Proof.
  revert p. induction sched as [|i sched IH]; intros p Hp; [done|].
  cbn. apply IH. by apply race_invariant_step.
Qed.

Lemma schedule_step_length i p :
  length (schedule_step NewLimiter rps burst key i p).1 = length p.1.
Proof.
  destruct p as [cs st]. unfold schedule_step. cbn [fst snd].
  destruct (cs !! i) as [c|]; [|done].
  destruct (caller_step NewLimiter rps burst key c st).
  cbn. apply length_insert.
Qed.

Lemma run_schedule_length sched p :
  length (run_schedule NewLimiter rps burst key sched p).1 = length p.1.
Proof.
  revert p. induction sched as [|i sched IH]; intros p; [done|].
  unfold run_schedule in *. cbn [foldl]. rewrite IH.
  apply schedule_step_length.
Qed.
End ScheduleFacts.

(** ** Histories *)

Section HistoryFacts.
Context {Limiter : Type}.
Variable NewLimiter : Q -> Z -> Z -> Limiter.
Variables (rps : Q) (burst ttl : Z).
Implicit Types (st : @Store Limiter) (key : string).

(** A key that is looked up often enough is still bound, to the same
    limiter, at the end of the history. *)
Lemma registry_run_keeps key evs :
  0 <= ttl ->
  forall st entry,
    limiters st !! key = Some entry ->
    accessed_every_half_ttl ttl key (lastAccess entry) evs ->
    exists entry',
      limiters (registry_run NewLimiter rps burst ttl evs st) !! key
        = Some entry' /\
      limiter entry' = limiter entry.
Proof.
  intros Httl. induction evs as [|ev evs IH]; intros st entry Hk Hacc.
  - by exists entry.
  - unfold registry_run in *. cbn [foldl].
    destruct ev as [k now|now]; cbn [accessed_every_half_ttl] in Hacc.
    + cbn [registry_step]. destruct (decide (k = key)) as [->|Hne].
      * rewrite (getLimiter_present _ _ _ _ _ _ _ Hk). cbn [snd].
        apply (IH _ (mkEntry (limiter entry) now)); [|done].
        apply lookup_insert_eq.
      * pose proof (getLimiter_post NewLimiter rps burst now k st) as Hpost.
        destruct (getLimiter NewLimiter rps burst now k st) as [l st'].
        destruct Hpost as (_ & Hother & _). cbn [snd].
        apply (IH _ entry); [|done]. by rewrite Hother.
    + destruct Hacc as (Hrange & Hhalf & Hacc). cbn [registry_step].
      apply (IH _ entry); [|done].
      apply cleanup_recent; [done|].
      unfold cutoff. rewrite Int64_sub_exact by done.
      pose proof (Z.div_le_upper_bound ttl 2 ttl ltac:(lia) ltac:(lia)). lia.
Qed.
End HistoryFacts.

(** ** The claims about the registry *)

(** C1. [getLimiter] gets or creates.  When the key has an entry, the call
    returns that entry's limiter, sets the entry's [lastAccess] to the
    current time and constructs nothing.  When the key has no entry, the call
    constructs one limiter with the configured rate and burst and binds the
    key to it.  Hence any number of calls for one key that had no entry
    construct exactly one limiter and all return it: when the calls follow
    one another, and also when their locked sections interleave in any
    order. *)
Theorem getLimiter_get_or_create {Limiter : Type}
    (NewLimiter : Q -> Z -> Z -> Limiter) (rps : Q) (burst : Z)
    (key : string) (st : @Store Limiter) :
  (forall now entry,
     limiters st !! key = Some entry ->
     getLimiter NewLimiter rps burst now key st =
       (limiter entry,
        mkStore (<[key := mkEntry (limiter entry) now]> (limiters st))
                (heap st)))
  /\
  (forall now,
     limiters st !! key = None ->
     getLimiter NewLimiter rps burst now key st =
       (constructed st,
        mkStore (<[key := mkEntry (constructed st) now]> (limiters st))
                (heap st ++ [NewLimiter rps burst now])))
  /\
  (forall now nows,
     limiters st !! key = None ->
     let res := getLimiter_calls NewLimiter rps burst key (now :: nows) st in
     constructed res.2 = S (constructed st) /\
     Forall (eq (constructed st)) res.1)
  /\
  (forall cs sched,
     limiters st !! key = None ->
     Forall entering cs ->
     let res := run_schedule NewLimiter rps burst key sched (cs, st) in
     (constructed res.2 <= S (constructed st))%nat /\
     (cs <> [] -> Forall returned res.1 ->
      constructed res.2 = S (constructed st) /\
      Forall (eq (Returned (constructed st))) res.1)).
Proof.
  split_and!.
  - intros now entry. apply getLimiter_present.
  - intros now. apply getLimiter_absent.
  - intros now nows Hk. by apply getLimiter_calls_absent.
  - intros cs sched Hk Hcs res.
    pose proof (race_invariant_run NewLimiter rps burst key st sched (cs, st)
                  (race_invariant_init key st cs Hk Hcs)) as Hinv.
    pose proof (run_schedule_length NewLimiter rps burst key sched (cs, st))
      as Hlen.
    fold res in Hinv, Hlen. cbn [fst] in Hlen.
    destruct Hinv as [(_ & Hheap & Hnone) | (entry & _ & _ & Hn & Hret)].
    + split; [unfold constructed; rewrite Hheap; lia|].
      intros Hne Hall. exfalso.
      destruct res.1 as [|c cs'] eqn:Hres.
      * destruct cs; [done | discriminate Hlen].
      * apply Forall_cons in Hnone as [Hc _]. apply Forall_cons in Hall as [Hc' _].
        by apply Hc.
    + split; [lia|]. intros _ Hall. split; [done|].
      rewrite Forall_forall in Hret, Hall. apply Forall_forall.
      intros c Hc. symmetry. apply Hret; [done|]. by apply Hall.
Qed.

(** C10. A cleanup pass only deletes.  An entry last used at or after the
    cutoff is still bound to its key afterwards, with the same limiter and
    the same [lastAccess]; no limiter object is touched; and whatever is
    bound after the pass was bound, to the same entry, before it. *)
Theorem cleanup_frame {Limiter : Type} (now ttl : Z) (st : @Store Limiter)
    (key : string) (entry : limiterEntry) :
  limiters st !! key = Some entry ->
  cutoff now ttl <= lastAccess entry ->
  let st' := cleanupInactiveLimiters now ttl st in
  limiters st' !! key = Some entry /\
  heap st' = heap st /\
  (forall k e, limiters st' !! k = Some e -> limiters st !! k = Some e).
Proof.
  intros Hk Hge st'. split_and!.
  - by apply cleanup_recent.
  - apply cleanup_heap.
  - intros k e. apply cleanup_only_deletes.
Qed.

(** C3. A tick of the cleanup computes the cutoff [now - ttl] and removes
    exactly the entries last used before it: the map afterwards is the map
    before without those entries.  Hence an entry idle for [ttl] plus any
    positive margin is gone after the tick, and a key looked up at least
    every [ttl / 2] is still bound after every tick of any history. *)
Theorem cleanup_evicts_exactly_idle {Limiter : Type}
    (NewLimiter : Q -> Z -> Z -> Limiter) (now ttl : Z)
    (st : @Store Limiter) :
  Int64.in_range (now - ttl) ->
  let st' := cleanupInactiveLimiters now ttl st in
  cutoff now ttl = now - ttl
  /\
  limiters st' = spec_evict (now - ttl) (limiters st)
  /\
  (forall key entry,
     limiters st !! key = Some entry ->
     (lastAccess entry < now - ttl -> limiters st' !! key = None) /\
     (now - ttl <= lastAccess entry -> limiters st' !! key = Some entry))
  /\
  (forall key, limiters st !! key = None -> limiters st' !! key = None)
  /\
  (forall key entry eps,
     limiters st !! key = Some entry ->
     0 < eps -> lastAccess entry + (ttl + eps) <= now ->
     limiters st' !! key = None)
  /\
  (forall rps burst key entry evs,
     0 <= ttl ->
     limiters st !! key = Some entry ->
     accessed_every_half_ttl ttl key (lastAccess entry) evs ->
     exists entry',
       limiters (registry_run NewLimiter rps burst ttl evs st) !! key
         = Some entry' /\
       limiter entry' = limiter entry).
Proof.
  intros Hrange st'.
  assert (cutoff now ttl = now - ttl) as Hc by by apply Int64_sub_exact.
  split_and!.
  - done.
  - subst st'. by rewrite cleanup_is_spec_evict, Hc.
  - intros key entry Hk. split; intros H.
    + apply (cleanup_stale _ _ _ _ _ Hk). lia.
    + apply (cleanup_recent _ _ _ _ _ Hk). lia.
  - intros key Hk. subst st'. by rewrite cleanup_lookup, Hk.
  - intros key entry eps Hk Heps Hidle.
    apply (cleanup_stale _ _ _ _ _ Hk). lia.
  - intros rps burst key entry evs Httl Hk Hacc.
    by apply registry_run_keeps.
Qed.

(** ** The token bucket *)

Section BucketFacts.
Local Open Scope Q_scope.
Implicit Types (b : TokenBucket.t) (now : Q).

Lemma refill_le_capacity b now :
  TokenBucket.refill b now <= TokenBucket.capacity b.
Proof. apply Q.le_min_l. Qed.

Lemma refill_le_sum b now :
  TokenBucket.refill b now <=
  TokenBucket.tokens b
    + (now - TokenBucket.lastRefill b) * TokenBucket.refillRatePerSecond b.
Proof. apply Q.le_min_r. Qed.

Lemma elapsed_tokens_nonneg b now :
  TokenBucket.lastRefill b <= now ->
  0 <= TokenBucket.refillRatePerSecond b ->
  0 <= (now - TokenBucket.lastRefill b) * TokenBucket.refillRatePerSecond b.
Proof. intros Ht Hr. apply Qmult_le_0_compat; lra. Qed.

(** With time going forward, a refill never takes tokens away. *)
Lemma refill_ge_tokens b now :
  TokenBucket.tokens b <= TokenBucket.capacity b ->
  TokenBucket.lastRefill b <= now ->
  0 <= TokenBucket.refillRatePerSecond b ->
  TokenBucket.tokens b <= TokenBucket.refill b now.
Proof.
  intros Hc Ht Hr. pose proof (elapsed_tokens_nonneg b now Ht Hr) as He.
  unfold TokenBucket.refill.
  destruct (Q.min_spec (TokenBucket.capacity b)
    (TokenBucket.tokens b + (now - TokenBucket.lastRefill b)
       * TokenBucket.refillRatePerSecond b)) as [[_ ->] | [_ ->]]; lra.
Qed.

Lemma Allow_grants b now :
  1 <= TokenBucket.refill b now ->
  TokenBucket.Allow b now =
    (true, TokenBucket.mk (TokenBucket.capacity b)
             (TokenBucket.refillRatePerSecond b)
             (TokenBucket.refill b now - 1) now).
Proof.
  intros H. unfold TokenBucket.Allow. cbn zeta.
  apply Qle_bool_iff in H. by rewrite H.
Qed.

Lemma Allow_rejects b now :
  TokenBucket.refill b now < 1 ->
  TokenBucket.Allow b now =
    (false, TokenBucket.mk (TokenBucket.capacity b)
              (TokenBucket.refillRatePerSecond b)
              (TokenBucket.refill b now) now).
Proof.
  intros H. unfold TokenBucket.Allow. cbn zeta.
  destruct (Qle_bool 1 (TokenBucket.refill b now)) eqn:Hb; [|done].
  apply Qle_bool_iff in Hb. lra.
Qed.

Lemma Allow_static b now :
  TokenBucket.capacity (TokenBucket.Allow b now).2 = TokenBucket.capacity b /\
  TokenBucket.refillRatePerSecond (TokenBucket.Allow b now).2
    = TokenBucket.refillRatePerSecond b /\
  TokenBucket.lastRefill (TokenBucket.Allow b now).2 = now.
Proof.
  unfold TokenBucket.Allow. cbn zeta.
  by destruct (Qle_bool 1 (TokenBucket.refill b now)).
Qed.

Lemma Allow_invariant b now :
  TokenBucket.invariant b ->
  0 <= TokenBucket.refillRatePerSecond b ->
  TokenBucket.lastRefill b <= now ->
  TokenBucket.invariant (TokenBucket.Allow b now).2.
Proof.
  intros [H0 Hc] Hr Ht.
  pose proof (refill_le_capacity b now) as Hle.
  pose proof (refill_ge_tokens b now Hc Ht Hr) as Hge.
  destruct (Qlt_le_dec (TokenBucket.refill b now) 1) as [Hlt|Hone].
  - rewrite (Allow_rejects _ _ Hlt). unfold TokenBucket.invariant. cbn. lra.
  - rewrite (Allow_grants _ _ Hone). unfold TokenBucket.invariant. cbn. lra.
Qed.

Lemma observations_invariant times : forall b,
  TokenBucket.invariant b ->
  0 <= TokenBucket.refillRatePerSecond b ->
  TokenBucket.monotone (TokenBucket.lastRefill b) times ->
  Forall TokenBucket.invariant (TokenBucket.observations b times).
Proof.
  induction times as [|now times IH]; intros b Hinv Hr Hmono; cbn.
  - by constructor.
  - destruct Hmono as [Ht Hmono]. constructor; [done|].
    destruct (Allow_static b now) as (_ & HR & HL).
    apply IH.
    + by apply Allow_invariant.
    + by rewrite HR.
    + by rewrite HL.
Qed.

(** A bucket holding [n] whole tokens, and no more than [n] plus what
    accrued since [first], admits the next [n] calls and rejects the calls
    after them, as long as all calls come before a further token has
    accrued since [first]. *)
Lemma Allows_burst times : forall (n : nat) b first,
  TokenBucket.monotone (TokenBucket.lastRefill b) times ->
  0 <= TokenBucket.refillRatePerSecond b ->
  first <= TokenBucket.lastRefill b ->
  inject_Z (Z.of_nat n) <= TokenBucket.tokens b ->
  TokenBucket.tokens b <= TokenBucket.capacity b ->
  TokenBucket.tokens b <=
    inject_Z (Z.of_nat n)
      + (TokenBucket.lastRefill b - first) * TokenBucket.refillRatePerSecond b ->
  Forall (fun t => (t - first) * TokenBucket.refillRatePerSecond b < 1) times ->
  (TokenBucket.Allows b times).1 =
    repeat true (Nat.min n (length times))
      ++ repeat false (length times - n).
Proof.
  induction times as [|now times IH];
    intros n b first Hmono Hr Hfirst Hlo Hcap Hhi Hwin.
  - cbn. by rewrite Nat.min_0_r.
  - destruct Hmono as [Ht Hmono]. apply Forall_cons in Hwin as [Hnow Hwin].
    pose proof (refill_le_capacity b now) as Hle.
    pose proof (refill_ge_tokens b now Hcap Ht Hr) as Hge.
    pose proof (refill_le_sum b now) as Hsum.
    destruct (Allow_static b now) as (HC & HR & HL).
    cbn [TokenBucket.Allows].
    destruct n as [|n].
    + change (inject_Z (Z.of_nat 0)) with 0 in Hlo, Hhi.
      assert (TokenBucket.refill b now < 1) as Hlt by lra.
      rewrite (Allow_rejects _ _ Hlt) in *. cbn [snd] in *.
      specialize (IH 0%nat
        (TokenBucket.mk (TokenBucket.capacity b)
           (TokenBucket.refillRatePerSecond b) (TokenBucket.refill b now) now)
        first).
      destruct (TokenBucket.Allows _ times) as [oks b'].
      cbn in IH. change (inject_Z (Z.of_nat 0)) with 0 in IH.
      cbn [fst]. rewrite IH by (done || lra).
      cbn. by rewrite Nat.sub_0_r.
    + rewrite Nat2Z.inj_succ in Hlo, Hhi. unfold Z.succ in Hlo, Hhi.
      rewrite inject_Z_plus in Hlo, Hhi.
      change (inject_Z 1) with 1 in Hlo, Hhi.
      assert (0 <= inject_Z (Z.of_nat n)) as Hn.
      { change 0 with (inject_Z 0). rewrite <- Zle_Qle. lia. }
      assert (1 <= TokenBucket.refill b now) as Hone by lra.
      rewrite (Allow_grants _ _ Hone) in *. cbn [snd] in *.
      specialize (IH n
        (TokenBucket.mk (TokenBucket.capacity b)
           (TokenBucket.refillRatePerSecond b)
           (TokenBucket.refill b now - 1) now)
        first).
      destruct (TokenBucket.Allows _ times) as [oks b'].
      cbn in IH. cbn [fst]. by rewrite IH by (done || lra).
Qed.
End BucketFacts.

Section BucketClaims.
Local Open Scope Q_scope.

Lemma observations_static times : forall b,
  Forall (fun o => TokenBucket.capacity o = TokenBucket.capacity b /\
                   TokenBucket.refillRatePerSecond o
                     = TokenBucket.refillRatePerSecond b)
         (TokenBucket.observations b times).
Proof.
  induction times as [|now times IH]; intros b; cbn.
  - by constructor.
  - constructor; [done|].
    destruct (Allow_static b now) as (HC & HR & _).
    eapply Forall_impl; [apply IH|]. cbn. intros o [-> ->]. by split.
Qed.

(** C2. [Allow] first refills: the tokens become the smaller of the
    capacity and the tokens plus the elapsed time times the rate, and the
    time of the last refill becomes the current time.  Then, when at least
    one token is there, it takes one and admits; otherwise it rejects and
    takes nothing. *)
Theorem Allow_refills_then_decides (b : TokenBucket.t) (now : Q) :
  let elapsed := now - TokenBucket.lastRefill b in
  let refilled :=
    Qmin (TokenBucket.capacity b)
         (TokenBucket.tokens b
            + elapsed * TokenBucket.refillRatePerSecond b) in
  let res := TokenBucket.Allow b now in
  TokenBucket.lastRefill res.2 = now /\
  TokenBucket.capacity res.2 = TokenBucket.capacity b /\
  TokenBucket.refillRatePerSecond res.2 = TokenBucket.refillRatePerSecond b /\
  (1 <= refilled ->
     res.1 = true /\ TokenBucket.tokens res.2 = refilled - 1) /\
  (refilled < 1 ->
     res.1 = false /\ TokenBucket.tokens res.2 = refilled).
Proof.
  intros elapsed refilled res.
  destruct (Allow_static b now) as (HC & HR & HL).
  split_and!; [done..| |].
  - intros H. subst res. by rewrite (Allow_grants b now H).
  - intros H. subst res. by rewrite (Allow_rejects b now H).
Qed.

(** C5. The tokens of a bucket stay between zero and its capacity at every
    point it is observed at: when it is made, and after each call of
    [Allow], for calls at clock readings that do not go back.  However
    long the bucket was idle, a call finds at most the capacity to consume
    from. *)
Theorem tokens_between_zero_and_capacity (C R t0 : Q) (times : list Q) :
  0 <= C -> 0 <= R -> TokenBucket.monotone t0 times ->
  Forall (fun b => 0 <= TokenBucket.tokens b /\ TokenBucket.tokens b <= C)
         (TokenBucket.observations (TokenBucket.New C R t0) times)
  /\
  Forall (fun b => forall now, TokenBucket.refill b now <= C)
         (TokenBucket.observations (TokenBucket.New C R t0) times).
Proof.
  intros HC HR Hmono.
  pose proof (observations_invariant times (TokenBucket.New C R t0)) as Hinv.
  pose proof (observations_static times (TokenBucket.New C R t0)) as Hst.
  rewrite Forall_forall in Hst.
  split.
  - rewrite Forall_forall in Hinv. apply Forall_forall. intros b Hb.
    destruct (Hst b Hb) as [Hcap _]. cbn in Hcap.
    destruct Hinv with (x := b) as [H0 Hle]; [| done | done | done |].
    + unfold TokenBucket.invariant. cbn. lra.
    + rewrite Hcap in Hle. by split.
  - apply Forall_forall. intros b Hb now.
    destruct (Hst b Hb) as [Hcap _]. cbn in Hcap. rewrite <- Hcap.
    apply refill_le_capacity.
Qed.

(** A full bucket of capacity 20 and rate 10: of 25 calls in time order
    that all come within a tenth of a second of the first, the first 20
    pass. *)
Lemma burst_20_then_5 (t0 : Q) (times : list Q) :
  length times = 25%nat ->
  TokenBucket.monotone t0 times ->
  Forall (fun t => (t - List.hd t0 times) * 10 < 1) times ->
  (TokenBucket.Allows (TokenBucket.New 20 10 t0) times).1
    = repeat true 20 ++ repeat false 5.
Proof.
  intros Hlen Hmono Hwin. set (b0 := TokenBucket.New 20 10 t0).
  destruct times as [|t1 rest]; [discriminate Hlen|].
  injection Hlen as Hlen. destruct Hmono as [Ht Hmono].
  apply Forall_cons in Hwin as [_ Hwin]. cbn [List.hd] in Hwin.
  set (b1 := TokenBucket.mk 20 10 (TokenBucket.refill b0 t1 - 1) t1).
  pose proof (refill_le_capacity b0 t1) as Hle.
  pose proof (refill_ge_tokens b0 t1 ltac:(cbn; lra) Ht ltac:(cbn; lra))
    as Hge.
  change (TokenBucket.capacity b0) with 20 in Hle.
  change (TokenBucket.tokens b0) with 20 in Hge.
  assert (1 <= TokenBucket.refill b0 t1) as Hone by lra.
  cbn [TokenBucket.Allows]. rewrite (Allow_grants _ _ Hone).
  change (TokenBucket.mk (TokenBucket.capacity b0) _ _ t1) with b1.
  pose proof (Allows_burst rest 19 b1 t1) as Hburst.
  change (inject_Z (Z.of_nat 19)) with 19 in Hburst.
  change (TokenBucket.refillRatePerSecond b1) with 10 in Hburst.
  change (TokenBucket.lastRefill b1) with t1 in Hburst.
  change (TokenBucket.capacity b1) with 20 in Hburst.
  change (TokenBucket.tokens b1)
    with (TokenBucket.refill b0 t1 - 1) in Hburst.
  destruct (TokenBucket.Allows b1 rest) as [oks b'].
  cbn [fst snd] in *. rewrite Hburst by (done || lra).
  by rewrite Hlen.
Qed.

(** C6. With the default rate of 10 requests per second and burst of 20,
    a bucket answers 25 calls of [Allow] that follow one another within
    less than the tenth of a second a token takes to accrue with 20 admits
    followed by 5 rejects. *)
Theorem default_burst_grants_20_then_rejects_5
    (SplitHostPort : string -> string * string * option string)
    (t0 : Q) (times : list Q) :
  let cfg := DefaultRateLimiterConfig SplitHostPort in
  let b0 :=
    TokenBucket.New (inject_Z (Burst cfg)) (RequestsPerSecond cfg) t0 in
  length times = 25%nat ->
  TokenBucket.monotone t0 times ->
  Forall (fun t => (t - List.hd t0 times) * RequestsPerSecond cfg < 1) times ->
  (TokenBucket.Allows b0 times).1 = repeat true 20 ++ repeat false 5.
Proof.
  intros cfg b0 Hlen Hmono Hwin.
  change b0 with (TokenBucket.New 20 10 t0).
  change (RequestsPerSecond cfg) with 10 in Hwin.
  by apply burst_20_then_5.
Qed.
End BucketClaims.

(** ** The client address *)

Section RealIPFacts.
Variable TrimSpace : string -> string.
Variable ParseIP : string -> option (list Z).
Variable SplitHostPort : string -> string * string * option string.

Lemma Split_cons s sep : exists hd tl, Split s sep = hd :: tl.
Proof.
  induction s as [|c s IH]; cbn.
  - by eexists _, _.
  - destruct (Ascii.eqb c sep); [by eexists _, _|].
    destruct (Split s sep); by eexists _, _.
Qed.

Lemma nonempty_false s : nonempty s = false -> s = ""%string.
Proof.
  unfold nonempty. intros H. apply negb_false_iff in H.
  by apply String.eqb_eq in H.
Qed.

Lemma peer_address_WithValue key value r :
  peer_address SplitHostPort (WithValue key value r)
    = peer_address SplitHostPort r.
Proof. reflexivity. Qed.

(** The candidate of the source is the candidate of the specification,
    with the empty string for none. *)
Lemma RealIP_candidate_spec r :
  RealIP_candidate TrimSpace r =
    default ""%string (spec_candidate TrimSpace r).
Proof.
  unfold RealIP_candidate, spec_candidate.
  destruct (nonempty (Header_Get (Header r) "X-Forwarded-For")).
  - destruct (Split_cons (Header_Get (Header r) "X-Forwarded-For") ","%char)
      as (hd & tl & ->). reflexivity.
  - by destruct (nonempty (Header_Get (Header r) "X-Real-IP")).
Qed.

Lemma GetRealIP_stored r ip :
  nonempty ip = true ->
  GetRealIP SplitHostPort (WithValue RealIPKey ip r) = ip.
Proof.
  intros Hip. unfold GetRealIP, WithValue. cbn [Context].
  by rewrite lookup_insert_eq, Hip.
Qed.

Lemma GetRealIP_fallback r :
  (Context r) !! RealIPKey = None ->
  GetRealIP SplitHostPort r = peer_address SplitHostPort r.
Proof. intros Hctx. unfold GetRealIP. by rewrite Hctx. Qed.

(** C4. The key of a request that went through [RealIP] is, as the
    specification says: the trimmed first entry of the forwarded list when
    that header is present, else the trimmed real-address header when that
    one is present, provided the candidate parses as an address; in every
    other case the peer address.  The derivation is a total function: it
    gives a key for every request. *)
Theorem key_derivation (r : Request) :
  ParseIP ""%string = None ->
  (Context r) !! RealIPKey = None ->
  KeyFunc (DefaultRateLimiterConfig SplitHostPort)
          (RealIP_request TrimSpace ParseIP r)
    = spec_key TrimSpace ParseIP SplitHostPort r.
Proof.
  intros Hempty Hctx. cbn [KeyFunc DefaultRateLimiterConfig].
  unfold RealIP_request, spec_key. rewrite RealIP_candidate_spec.
  destruct (spec_candidate TrimSpace r) as [c|]; cbn [from_option id].
  - destruct (nonempty c) eqn:Hc; cbn [andb].
    + destruct (ParseIP c) as [ip|] eqn:Hip.
      * rewrite bool_decide_eq_true_2 by by eexists.
        by apply GetRealIP_stored.
      * rewrite bool_decide_eq_false_2 by by intros [? ?].
        by apply GetRealIP_fallback.
    + apply nonempty_false in Hc as ->. rewrite Hempty.
      by apply GetRealIP_fallback.
  - cbn [nonempty String.eqb negb andb]. by apply GetRealIP_fallback.
Qed.
End RealIPFacts.

(** The examples of the specification, on the sample functions. *)
Lemma key_derivation_witness :
  let key r :=
    KeyFunc (DefaultRateLimiterConfig Sample.SplitHostPort)
            (RealIP_request Sample.TrimSpace Sample.ParseIP r) in
  key (Sample.request ["203.0.113.1, 10.0.0.1"%string] [] "192.0.2.9:4711")
    = "203.0.113.1"%string /\
  key (Sample.request ["not-an-ip"%string] [] "192.0.2.9:4711")
    = "192.0.2.9"%string /\
  key (Sample.request [] [] "192.0.2.9:4711") = "192.0.2.9"%string.
Proof.
  intros key. unfold key. split_and!.
  - rewrite (key_derivation Sample.TrimSpace Sample.ParseIP Sample.SplitHostPort);
      [vm_compute; reflexivity | reflexivity | reflexivity].
  - rewrite (key_derivation Sample.TrimSpace Sample.ParseIP Sample.SplitHostPort);
      [vm_compute; reflexivity | reflexivity | reflexivity].
  - rewrite (key_derivation Sample.TrimSpace Sample.ParseIP Sample.SplitHostPort);
      [vm_compute; reflexivity | reflexivity | reflexivity].
Defined.

(** ** The handler *)

Lemma Contains_app_r (s1 s2 sub : string) :
  Contains s2 sub = true -> Contains (s1 ++ s2) sub = true.
Proof.
  intros H. induction s1 as [|c s1 IH]; [done|].
  change (String c s1 +:+ s2) with (String c (s1 +:+ s2)).
  cbn [Contains]. rewrite IH. apply orb_true_r.
Qed.

(** What [reject] leaves in the response. *)
Lemma reject_response (w : ResponseWriter) :
  header (reject w) !! "Retry-After"%string = Some ["1"%string] /\
  header (reject w) !! "Content-Type"%string = Some ["application/json"%string] /\
  body (reject w) = (body w ++ rate_limited_body)%string /\
  Contains (body (reject w)) rate_limited_code = true /\
  (written w = false -> statusCode (reject w) = StatusTooManyRequests).
Proof.
  assert (body (reject w) = (body w ++ rate_limited_body)%string) as Hbody.
  { unfold reject, Write, WriteHeader, SetHeader. cbn.
    by destruct (written w). }
  split_and!.
  - unfold reject, Write, WriteHeader, SetHeader, Header_Set. cbn.
    destruct (written w); cbn; apply lookup_insert_eq.
  - unfold reject, Write, WriteHeader, SetHeader, Header_Set. cbn.
    destruct (written w); cbn;
      (rewrite lookup_insert_ne by done); apply lookup_insert_eq.
  - done.
  - rewrite Hbody. apply Contains_app_r. by vm_compute.
  - intros Hw. unfold reject, Write, WriteHeader, SetHeader. cbn.
    by rewrite Hw.
Qed.

Section HandlerFacts.
Context {Limiter : Type}.
Variable NewLimiter : Q -> Z -> Z -> Limiter.
Variable Allow : Limiter -> Z -> bool * Limiter.
Implicit Types (m : @Middleware Limiter) (st : @Store Limiter).

(** In a well-formed store the limiter [getLimiter] returns is there, so
    the decision is the one its [Allow] takes. *)
Lemma decision_by_Allow cfg now t r st :
  wf_store st ->
  let key := KeyFunc cfg r in
  let got :=
    getLimiter NewLimiter (RequestsPerSecond cfg) (Burst cfg) now key st in
  exists lim,
    heap got.2 !! got.1 = Some lim /\
    decision NewLimiter Allow cfg now t r st =
      Some ((Allow lim t).1,
            mkStore (limiters got.2) (<[got.1 := (Allow lim t).2]> (heap got.2))).
Proof.
  intros Hwf key got.
  destruct (getLimiter_wf NewLimiter (RequestsPerSecond cfg) (Burst cfg)
              now key st Hwf) as [_ Hl].
  fold got in Hl. apply lookup_lt_is_Some_2 in Hl as [lim Hlim].
  exists lim. split; [done|].
  unfold decision. fold key. fold got. destruct got as [l st1]. cbn [fst snd] in *.
  unfold Allow_at. rewrite Hlim. by destruct (Allow lim t).
Qed.

Lemma Allow_at_wf l t st ok st' :
  wf_store st -> Allow_at Allow l t st = Some (ok, st') -> wf_store st'.
Proof.
  unfold Allow_at. intros Hwf H.
  destruct (heap st !! l) as [lim|]; [|done].
  destruct (Allow lim t) as [ok' lim']. injection H as _ <-.
  intros key entry Hk. cbn in *. rewrite length_insert. by eapply Hwf.
Qed.

Lemma decision_wf cfg now t r st ok st' :
  wf_store st -> decision NewLimiter Allow cfg now t r st = Some (ok, st') ->
  wf_store st'.
Proof.
  intros Hwf. unfold decision.
  pose proof (getLimiter_wf NewLimiter (RequestsPerSecond cfg) (Burst cfg)
                now (KeyFunc cfg r) st Hwf) as [Hwf1 _].
  destruct (getLimiter _ _ _ _ _ st) as [l st1]. cbn [snd] in Hwf1.
  by apply Allow_at_wf.
Qed.

(** A request for a key that is bound takes its decision from the limiter
    the key is bound to, and leaves the key bound to that limiter. *)
Lemma decision_bound cfg now t r st entry lim :
  limiters st !! KeyFunc cfg r = Some entry ->
  heap st !! limiter entry = Some lim ->
  decision NewLimiter Allow cfg now t r st =
    Some ((Allow lim t).1,
          mkStore (<[KeyFunc cfg r := mkEntry (limiter entry) now]> (limiters st))
                  (<[limiter entry := (Allow lim t).2]> (heap st))).
Proof.
  intros Hk Hlim. unfold decision.
  rewrite (getLimiter_present _ _ _ _ _ _ _ Hk).
  unfold Allow_at. cbn [heap limiters]. rewrite Hlim.
  by destruct (Allow lim t).
Qed.

(** Requests of one key, once it is bound, are decided by successive calls
    of [Allow] on the one limiter. *)
Lemma decisions_bound cfg key reqs : forall st entry lim,
  Forall (fun q => KeyFunc cfg q.2 = key) reqs ->
  limiters st !! key = Some entry ->
  heap st !! limiter entry = Some lim ->
  exists st',
    decisions NewLimiter Allow cfg reqs st =
      Some ((Allow_series Allow lim (map (fun q => q.1.2) reqs)).1, st').
Proof.
  induction reqs as [|[[now t] r] reqs IH]; intros st entry lim Hkeys Hk Hlim.
  - by eexists.
  - apply Forall_cons in Hkeys as [Hkey Hkeys]. cbn [snd] in Hkey.
    cbn [decisions map Allow_series fst snd].
    rewrite <- Hkey in Hk.
    rewrite (decision_bound cfg now t r st entry lim Hk Hlim).
    set (st1 := mkStore _ _).
    destruct (IH st1 (mkEntry (limiter entry) now) (Allow lim t).2 Hkeys)
      as [st' Hrest].
    + rewrite <- Hkey. apply lookup_insert_eq.
    + apply list_lookup_insert_eq. by eapply lookup_lt_Some.
    + rewrite Hrest. destruct (Allow lim t) as [ok lim']. cbn [fst snd].
      destruct (Allow_series Allow lim' _) as [oks lim'']. by eexists.
Qed.

(** The first request of a key constructs the limiter that decides it and
    the requests after it. *)
Lemma decisions_fresh cfg key now t r reqs st :
  KeyFunc cfg r = key ->
  Forall (fun q => KeyFunc cfg q.2 = key) reqs ->
  limiters st !! key = None ->
  exists st',
    decisions NewLimiter Allow cfg ((now, t, r) :: reqs) st =
      Some ((Allow_series Allow
               (NewLimiter (RequestsPerSecond cfg) (Burst cfg) now)
               (t :: map (fun q => q.1.2) reqs)).1, st').
Proof.
  intros Hkey Hkeys Hk. cbn [decisions map Allow_series].
  set (lim := NewLimiter (RequestsPerSecond cfg) (Burst cfg) now).
  assert (decision NewLimiter Allow cfg now t r st =
            Some ((Allow lim t).1,
                  mkStore (<[key := mkEntry (constructed st) now]> (limiters st))
                          (<[constructed st := (Allow lim t).2]>
                             (heap st ++ [lim])))) as Hfirst.
  { unfold decision. rewrite Hkey, (getLimiter_absent _ _ _ _ _ _ Hk).
    unfold Allow_at. cbn [heap limiters]. unfold constructed.
    rewrite list_lookup_middle by done. fold lim.
    by destruct (Allow lim t). }
  rewrite Hfirst. set (st1 := mkStore _ _).
  destruct (decisions_bound cfg key reqs st1 (mkEntry (constructed st) now)
              (Allow lim t).2 Hkeys) as [st' Hrest].
  - apply lookup_insert_eq.
  - apply list_lookup_insert_eq. unfold constructed.
    rewrite length_app. cbn. lia.
  - rewrite Hrest. destruct (Allow lim t) as [ok lim']. cbn [fst snd].
    destruct (Allow_series Allow lim' _) as [oks lim'']. by eexists.
Qed.

(** C7. At the boundary: when [Allow] says no, the handler sets
    [Retry-After: 1], answers with status 429 and a body that contains the
    code [RATE_LIMITED], and does not call the next handler; when [Allow]
    says yes, the handler calls the next handler once, on the response as
    it received it. *)
Theorem RateLimiter_boundary {D : Type} (next : Handler D) (now t : Z)
    (r : Request) (w : ResponseWriter) (d : D) (n : nat) m :
  wf_store (store m) ->
  let key := KeyFunc (config m) r in
  let got :=
    getLimiter NewLimiter (RequestsPerSecond (config m)) (Burst (config m))
               now key (store m) in
  exists lim st',
    heap got.2 !! got.1 = Some lim /\
    decision NewLimiter Allow (config m) now t r (store m)
      = Some ((Allow lim t).1, st') /\
    ((Allow lim t).1 = false ->
       RateLimiter_ServeHTTP NewLimiter Allow next now t r (w, d) m
         = Some (reject w, d, with_store m st') /\
       RateLimiter_ServeHTTP NewLimiter Allow (counted next) now t r
         (w, (d, n)) m
         = Some (reject w, (d, n), with_store m st') /\
       header (reject w) !! "Retry-After"%string = Some ["1"%string] /\
       Contains (body (reject w)) rate_limited_code = true /\
       (written w = false -> statusCode (reject w) = 429))
    /\
    ((Allow lim t).1 = true ->
       RateLimiter_ServeHTTP NewLimiter Allow next now t r (w, d) m
         = Some (next r (w, d), with_store m st') /\
       RateLimiter_ServeHTTP NewLimiter Allow (counted next) now t r
         (w, (d, n)) m
         = Some ((next r (w, d)).1, ((next r (w, d)).2, S n),
                 with_store m st')).
Proof.
  intros Hwf key got.
  destruct (decision_by_Allow (config m) now t r (store m) Hwf)
    as (lim & Hlim & Hdec).
  fold key in Hlim, Hdec. fold got in Hlim, Hdec.
  eexists lim, _. split_and!; [exact Hlim | exact Hdec | |].
  - intros Hno. unfold RateLimiter_ServeHTTP. rewrite Hdec, Hno.
    destruct (reject_response w) as (Hretry & _ & _ & Hbody & Hstatus).
    by split_and!.
  - intros Hyes. unfold RateLimiter_ServeHTTP. rewrite Hdec, Hyes.
    cbn [negb]. split; [done|]. unfold counted. cbn [fst snd].
    by destruct (next r (w, d)).
Qed.
End HandlerFacts.

(** A rejected and an admitted request, on a fresh middleware and a fresh
    response. *)
Lemma RateLimiter_boundary_witness :
  let m cfg := @RateLimiter unit cfg in
  let cfg := DefaultRateLimiterConfig Sample.SplitHostPort in
  let r := Sample.request [] [] "192.0.2.9:4711" in
  (exists m',
     RateLimiter_ServeHTTP Sample.unit_limiter Sample.deny Sample.ok_handler
       Sample.now Sample.now r (fresh_writer, tt) (m cfg)
       = Some (reject fresh_writer, tt, m') /\
     statusCode (reject fresh_writer) = 429) /\
  (exists m',
     RateLimiter_ServeHTTP Sample.unit_limiter Sample.grant Sample.ok_handler
       Sample.now Sample.now r (fresh_writer, tt) (m cfg)
       = Some (Sample.ok_handler r (fresh_writer, tt), m')).
Proof.
  intros m cfg r.
  assert (wf_store (store (m cfg))) as Hwf.
  { intros key entry Hk. cbn in Hk. by rewrite lookup_empty in Hk. }
  split.
  - destruct (RateLimiter_boundary Sample.unit_limiter Sample.deny
                Sample.ok_handler Sample.now Sample.now r fresh_writer tt 0
                (m cfg) Hwf) as (lim & st' & _ & _ & Hno & _).
    destruct (Hno eq_refl) as (Hserve & _ & _ & _ & Hstatus).
    exists (with_store (m cfg) st'). split; [exact Hserve|].
    exact (Hstatus eq_refl).
  - destruct (RateLimiter_boundary Sample.unit_limiter Sample.grant
                Sample.ok_handler Sample.now Sample.now r fresh_writer tt 0
                (m cfg) Hwf) as (lim & st' & _ & _ & _ & Hyes).
    destruct (Hyes eq_refl) as (Hserve & _).
    exists (with_store (m cfg) st'). exact Hserve.
Defined.

(** ** The burst through the middleware *)

Lemma Allow_series_bucket (ts : list Z) : forall b,
  Allow_series TokenBucket.AllowAt b ts
    = TokenBucket.Allows b (map TokenBucket.seconds ts).
Proof.
  induction ts as [|t ts IH]; intros b; [done|].
  cbn [Allow_series TokenBucket.Allows map]. unfold TokenBucket.AllowAt at 1.
  destruct (TokenBucket.Allow b (TokenBucket.seconds t)) as [ok b'].
  by rewrite IH.
Qed.

(** With the default configuration and the bucket of the specification as
    the limiter, 25 requests of one client to a new middleware, their calls
    of [Allow] in time order and within a tenth of a second, are decided by
    one bucket: 20 pass, 5 do not. *)
Lemma RateLimiter_default_burst
    (SplitHostPort : string -> string * string * option string)
    (key : string) (now1 t1 : Z) (r1 : Request)
    (rest : list (Z * Z * Request)) :
  let cfg := DefaultRateLimiterConfig SplitHostPort in
  let m := @RateLimiter TokenBucket.t cfg in
  let reqs := (now1, t1, r1) :: rest in
  let times := map (fun q => TokenBucket.seconds q.1.2) reqs in
  length reqs = 25%nat ->
  Forall (fun q => KeyFunc cfg q.2 = key) reqs ->
  TokenBucket.monotone (TokenBucket.seconds now1) times ->
  Forall (fun t => (t - TokenBucket.seconds t1) * 10 < 1)%Q times ->
  exists st',
    decisions TokenBucket.NewLimiter TokenBucket.AllowAt (config m) reqs
              (store m)
      = Some (repeat true 20 ++ repeat false 5, st').
Proof.
  intros cfg m reqs times Hlen Hkeys Hmono Hwin.
  apply Forall_cons in Hkeys as [Hkey Hkeys]. cbn [snd] in Hkey.
  destruct (decisions_fresh TokenBucket.NewLimiter TokenBucket.AllowAt
              (config m) key now1 t1 r1 rest (store m) Hkey Hkeys)
    as [st' Hdec]; [apply lookup_empty|].
  exists st'. subst reqs. rewrite Hdec. f_equal. f_equal.
  change (t1 :: map (fun q => q.1.2) rest)
    with (map (fun q : Z * Z * Request => q.1.2) ((now1, t1, r1) :: rest)).
  rewrite Allow_series_bucket, map_map.
  change (TokenBucket.NewLimiter _ _ now1)
    with (TokenBucket.New 20 10 (TokenBucket.seconds now1)).
  apply burst_20_then_5.
  - by rewrite length_map.
  - exact Hmono.
  - exact Hwin.
Qed.

(** ** Construction and the cleanup goroutine *)

Section LifecycleFacts.
Context {Limiter : Type}.
Variable NewLimiter : Q -> Z -> Z -> Limiter.
Variable Allow : Limiter -> Z -> bool * Limiter.
Implicit Types (m : @Middleware Limiter).

Lemma perform_keeps_context o m :
  ctx_done m = false -> cleanup_running m = true ->
  ctx_done (perform NewLimiter Allow o m) = false /\
  cleanup_running (perform NewLimiter Allow o m) = true.
Proof.
  intros Hctx Hrun. destruct o as [now t r|[|now]]; cbn.
  - by destruct (decision NewLimiter Allow (config m) now t r (store m))
      as [[ok st']|].
  - unfold cleanup_loop. by rewrite Hrun, Hctx.
  - unfold cleanup_loop. by rewrite Hrun.
Qed.

(** No operation cancels the context, so the goroutine stays in its
    loop. *)
Lemma run_keeps_context ops : forall m,
  ctx_done m = false -> cleanup_running m = true ->
  ctx_done (run NewLimiter Allow ops m) = false /\
  cleanup_running (run NewLimiter Allow ops m) = true.
Proof.
  induction ops as [|o ops IH]; intros m Hctx Hrun; [done|].
  unfold run in *. cbn [foldl].
  destruct (perform_keeps_context o m Hctx Hrun) as [Hctx' Hrun'].
  by apply IH.
Qed.

Lemma perform_keeps_config o m :
  config (perform NewLimiter Allow o m) = config m.
Proof.
  destruct o as [now t r|[|now]]; cbn.
  - by destruct (decision NewLimiter Allow (config m) now t r (store m))
      as [[ok st']|].
  - unfold cleanup_loop. by destruct (cleanup_running m), (ctx_done m).
  - unfold cleanup_loop. by destruct (cleanup_running m).
Qed.

Lemma run_keeps_config ops : forall m,
  config (run NewLimiter Allow ops m) = config m.
Proof.
  induction ops as [|o ops IH]; intros m; [done|].
  unfold run in *. cbn [foldl]. by rewrite IH, perform_keeps_config.
Qed.

(** Every state a middleware can reach has its entries pointing at limiters
    that exist. *)
Lemma perform_wf o m :
  wf_store (store m) -> wf_store (store (perform NewLimiter Allow o m)).
Proof.
  intros Hwf. destruct o as [now t r|[|now]]; cbn.
  - destruct (decision NewLimiter Allow (config m) now t r (store m))
      as [[ok st']|] eqn:Hdec; [|done].
    cbn. by eapply decision_wf.
  - unfold cleanup_loop. by destruct (cleanup_running m), (ctx_done m).
  - unfold cleanup_loop. destruct (cleanup_running m); [|done].
    cbn. by apply cleanup_wf.
Qed.

Lemma run_wf ops cfg :
  wf_store (store (run NewLimiter Allow ops (RateLimiter cfg))).
Proof.
  assert (forall m, wf_store (store m) ->
            wf_store (store (run NewLimiter Allow ops m))) as Hrun.
  { induction ops as [|o ops IH]; intros m Hwf; [done|].
    unfold run in *. cbn [foldl]. by apply IH, perform_wf. }
  apply Hrun. intros key entry Hk. cbn in Hk. by rewrite lookup_empty in Hk.
Qed.

(** C8, as the code has it.  [RateLimiter] checks neither the rate nor the
    burst: for every configuration it returns a middleware, with the rate
    and the burst as given, and the first request of a key constructs its
    limiter from exactly these values.  Only a zero cleanup interval and a
    zero time to live are replaced, by five and ten minutes. *)
Theorem RateLimiter_keeps_rate_and_burst (cfg : RateLimiterConfig) :
  let m := @RateLimiter Limiter cfg in
  RequestsPerSecond (config m) = RequestsPerSecond cfg /\
  Burst (config m) = Burst cfg /\
  CleanupInterval (config m) =
    (if CleanupInterval cfg =? 0 then 5 * Duration.Minute
     else CleanupInterval cfg) /\
  InactiveTTL (config m) =
    (if InactiveTTL cfg =? 0 then 10 * Duration.Minute
     else InactiveTTL cfg) /\
  store m = mkStore ∅ [] /\
  (forall now key,
     getLimiter NewLimiter (RequestsPerSecond (config m)) (Burst (config m))
                now key (store m)
     = (0%nat,
        mkStore (<[key := mkEntry 0 now]> ∅)
                [NewLimiter (RequestsPerSecond cfg) (Burst cfg) now])).
Proof.
  intros m. split_and!; [reflexivity..|].
  intros now key.
  by rewrite (getLimiter_absent NewLimiter _ _ now key (store m))
    by apply lookup_empty.
Qed.

(** C9, as the code has it.  The cleanup goroutine does select on a
    cancellation context and would leave its loop once that context is
    done; but [RateLimiter] drops the [cancel] function, so after any
    sequence of requests and turns of the goroutine the context is not
    done and the goroutine is still running: it ends with the process. *)
Theorem cleanup_goroutine_runs_forever (cfg : RateLimiterConfig)
    (ops : list operation) :
  0 <= CleanupInterval cfg ->
  let m := run NewLimiter Allow ops (RateLimiter cfg) in
  0 < CleanupInterval (config m) /\
  ctx_done m = false /\
  cleanup_running m = true /\
  (forall m', cleanup_running m' = true -> ctx_done m' = true ->
     cleanup_running (cleanup_loop CtxDone m') = false).
Proof.
  intros Hinterval m.
  assert (0 < CleanupInterval (config m)) as Hpos.
  { subst m. rewrite run_keeps_config. cbn.
    destruct (Z.eqb_spec (CleanupInterval cfg) 0); [done | lia]. }
  split; [exact Hpos|].
  destruct (run_keeps_context ops (RateLimiter cfg) eq_refl eq_refl)
    as [Hctx Hrun].
  split_and!; [done..|].
  intros m' Hrun' Hctx'. unfold cleanup_loop. by rewrite Hrun', Hctx'.
Qed.
End LifecycleFacts.

(** C8, as the specification has it, fails: a configuration with rate and
    burst zero is invalid for the specification, whose construction reports a
    failure, while [RateLimiter] returns a middleware that keeps the zeros. *)
Lemma RateLimiter_accepts_zero_rate_and_burst :
  spec_invalid Sample.zero_config = true /\
  @spec_RateLimiter unit Sample.zero_config = None /\
  Some (@RateLimiter unit Sample.zero_config)
    <> spec_RateLimiter Sample.zero_config /\
  RequestsPerSecond (config (@RateLimiter unit Sample.zero_config)) = 0%Q /\
  Burst (config (@RateLimiter unit Sample.zero_config)) = 0.
Proof. by split_and!. Qed.

(** C9, as the specification has it, fails: no configuration and no sequence
    of operations on the middleware stops the cleanup goroutine. *)
Lemma cleanup_goroutine_cannot_be_stopped :
  ~ exists (cfg : RateLimiterConfig) (ops : list operation),
      0 <= CleanupInterval cfg /\
      cleanup_running
        (run Sample.unit_limiter Sample.grant ops (RateLimiter cfg)) = false.
Proof.
  intros (cfg & ops & _ & Hstop).
  destruct (run_keeps_context Sample.unit_limiter Sample.grant ops
              (RateLimiter cfg) eq_refl eq_refl) as [_ Hrun].
  congruence.
Qed.

(** ** The theorems at sample inputs *)

(** A lookup of a key that is bound, and three lookups of one that is
    not. *)
Lemma getLimiter_get_or_create_witness :
  getLimiter TokenBucket.NewLimiter 10 20 Sample.now "203.0.113.1"
             Sample.registry
    = (0%nat,
       mkStore (<["203.0.113.1"%string := mkEntry 0 Sample.now]>
                  (limiters Sample.registry))
               (heap Sample.registry)) /\
  constructed
    (getLimiter_calls TokenBucket.NewLimiter 10 20 "192.0.2.9"
       [Sample.now; Sample.now + 1; Sample.now + 2] Sample.registry).2
    = 3%nat.
Proof.
  split.
  - destruct (getLimiter_get_or_create TokenBucket.NewLimiter 10 20
                "203.0.113.1" Sample.registry) as (Hpresent & _).
    apply (Hpresent Sample.now (mkEntry 0 (Sample.now - 20 * Duration.Minute))).
    reflexivity.
  - destruct (getLimiter_get_or_create TokenBucket.NewLimiter 10 20
                "192.0.2.9" Sample.registry) as (_ & _ & Hcalls & _).
    destruct (Hcalls Sample.now [Sample.now + 1; Sample.now + 2])
      as [Hone _]; [reflexivity|].
    exact Hone.
Defined.

(** A request, a tick, and a turn of the goroutine on its context: the
    goroutine is still there. *)
Lemma cleanup_goroutine_runs_forever_witness :
  let ops :=
    [Serve Sample.now Sample.now (Sample.request [] [] "192.0.2.9:4711");
     Select (TickerC (Sample.now + 5 * Duration.Minute));
     Select CtxDone] in
  let m :=
    run Sample.unit_limiter Sample.grant ops
        (RateLimiter (DefaultRateLimiterConfig Sample.SplitHostPort)) in
  ctx_done m = false /\ cleanup_running m = true.
Proof.
  intros ops m.
  destruct (cleanup_goroutine_runs_forever Sample.unit_limiter Sample.grant
              (DefaultRateLimiterConfig Sample.SplitHostPort) ops)
    as (_ & Hctx & Hrun & _).
  - vm_compute. discriminate.
  - by split.
Defined.

Lemma cleanup_evicts_exactly_idle_witness :
  let st' := cleanupInactiveLimiters Sample.now Sample.ttl Sample.registry in
  cutoff Sample.now Sample.ttl = Sample.now - Sample.ttl /\
  limiters st' !! "203.0.113.1"%string = None /\
  limiters st' !! "198.51.100.7"%string
    = Some (mkEntry 1 (Sample.now - Duration.Minute)).
Proof.
  assert (Int64.in_range (Sample.now - Sample.ttl)) as Hrange.
  { vm_compute. split; discriminate. }
  destruct (cleanup_evicts_exactly_idle TokenBucket.NewLimiter
              Sample.now Sample.ttl Sample.registry Hrange)
    as (Hcut & _ & Hentry & _).
  split_and!.
  - exact Hcut.
  - apply (Hentry "203.0.113.1"%string
             (mkEntry 0 (Sample.now - 20 * Duration.Minute)));
      [reflexivity | vm_compute; reflexivity].
  - apply (Hentry "198.51.100.7"%string
             (mkEntry 1 (Sample.now - Duration.Minute)));
      [reflexivity | vm_compute; discriminate].
Defined.

Lemma cleanup_frame_witness :
  let st' := cleanupInactiveLimiters Sample.now Sample.ttl Sample.registry in
  limiters st' !! "198.51.100.7"%string
    = Some (mkEntry 1 (Sample.now - Duration.Minute)) /\
  heap st' = heap Sample.registry.
Proof.
  destruct (cleanup_frame Sample.now Sample.ttl Sample.registry
              "198.51.100.7"%string (mkEntry 1 (Sample.now - Duration.Minute)))
    as (Hkept & Hheap & _).
  - reflexivity.
  - vm_compute. discriminate.
  - by split.
Defined.

(** A hundred seconds idle with capacity 20 and rate 10: the call finds 20
    tokens, not 1020, admits, and leaves 19. *)
Lemma tokens_between_zero_and_capacity_witness :
  let b := TokenBucket.New 20 10 0 in
  (TokenBucket.refill b 100 <= 20)%Q /\
  (TokenBucket.Allow b 100).1 = true /\
  (0 <= TokenBucket.tokens (TokenBucket.Allow b 100).2)%Q /\
  (TokenBucket.tokens (TokenBucket.Allow b 100).2 <= 20)%Q /\
  (TokenBucket.tokens (TokenBucket.Allow b 100).2 == 19)%Q.
Proof.
  intros b.
  destruct (tokens_between_zero_and_capacity 20 10 0 [100%Q])
    as [Hobs Hrefill].
  - vm_compute. discriminate.
  - vm_compute. discriminate.
  - cbn. split; [|exact I]. vm_compute. discriminate.
  - cbn [TokenBucket.observations] in Hobs, Hrefill.
    apply Forall_cons in Hobs as [_ Hobs].
    apply Forall_cons in Hobs as [[H0 Hcap] _].
    apply Forall_cons in Hrefill as [Hr _].
    split_and!; [apply Hr | reflexivity | exact H0 | exact Hcap | reflexivity].
Defined.

Lemma default_burst_witness :
  (TokenBucket.Allows (TokenBucket.New 20 10 0) Sample.burst_times).1
    = repeat true 20 ++ repeat false 5.
Proof.
  apply (default_burst_grants_20_then_rejects_5 Sample.SplitHostPort 0
           Sample.burst_times).
  - reflexivity.
  - vm_compute. repeat split; discriminate.
  - vm_compute. repeat constructor.
Defined.

(** ** Examples *)

Example Split_forwarded_list :
  Split "203.0.113.1, 10.0.0.1" ","%char
    = ["203.0.113.1"%string; " 10.0.0.1"%string].
Proof. reflexivity. Qed.

Example Split_empty_string : Split "" ","%char = [""%string].
Proof. reflexivity. Qed.

Example rate_limited_body_length : String.length rate_limited_body = 103%nat.
Proof. reflexivity. Qed.

(** The real-address header is used when the forwarded list is absent. *)
Example key_from_real_ip_header :
  KeyFunc (DefaultRateLimiterConfig Sample.SplitHostPort)
    (RealIP_request Sample.TrimSpace Sample.ParseIP
       (Sample.request [] [" 198.51.100.2 "%string] "192.0.2.9:4711"))
  = "198.51.100.2"%string.
Proof. vm_compute. reflexivity. Qed.

(** Two lookups of a new key construct one limiter; both return it. *)
Example getLimiter_twice :
  let res :=
    getLimiter_calls TokenBucket.NewLimiter 10 20 "192.0.2.9"
      [Sample.now; Sample.now + 1] (mkStore ∅ []) in
  res.1 = [0%nat; 0%nat] /\ constructed res.2 = 1%nat.
Proof. vm_compute. by split. Qed.

(** Three callers racing for a new key, the two read-locked sections first:
    one limiter is constructed and every caller returns it. *)
Example getLimiter_race :
  let res :=
    run_schedule TokenBucket.NewLimiter 10 20 "192.0.2.9" [0; 1; 1; 2; 0]%nat
      ([AtRLock 5; AtRLock 6; AtRLock 7], mkStore ∅ []) in
  res.1 = [Returned 0; Returned 0; Returned 0] /\ constructed res.2 = 1%nat.
Proof. vm_compute. by split. Qed.

(** A key looked up every five minutes, with a time to live of ten, is
    still bound after five ticks; a key nobody looks up is gone. *)
Example five_ticks :
  let t k := Sample.now + k * (5 * Duration.Minute) in
  let evs :=
    [Tick (t 1); Access "198.51.100.7" (t 1);
     Tick (t 2); Access "198.51.100.7" (t 2);
     Tick (t 3); Access "198.51.100.7" (t 3);
     Tick (t 4); Access "198.51.100.7" (t 4);
     Tick (t 5)] in
  let st :=
    registry_run TokenBucket.NewLimiter 10 20 Sample.ttl evs Sample.registry in
  limiters st !! "198.51.100.7"%string = Some (mkEntry 1 (t 4)) /\
  limiters st !! "203.0.113.1"%string = None.
Proof. vm_compute. by split. Qed.

(** The burst at one instant, and the refill a second later: ten more
    calls pass, the eleventh does not. *)
Example burst_then_refill :
  let burst := TokenBucket.Allows (TokenBucket.New 20 10 0) (repeat 0%Q 25) in
  burst.1 = repeat true 20 ++ repeat false 5 /\
  (TokenBucket.Allows burst.2 (repeat 1%Q 11)).1 = repeat true 10 ++ [false].
Proof. vm_compute. by split. Qed.

(** Twenty-five requests of one client a millisecond apart, through the
    middleware with its default configuration. *)
Example middleware_burst :
  let cfg := DefaultRateLimiterConfig Sample.SplitHostPort in
  let r := RealIP_request Sample.TrimSpace Sample.ParseIP
             (Sample.request ["203.0.113.1, 10.0.0.1"%string] []
                             "192.0.2.9:4711") in
  let reqs :=
    map (fun k => let t := Sample.now + Z.of_nat k * 1000000 in (t, t, r))
        (seq 0 25) in
  fst <$> decisions TokenBucket.NewLimiter TokenBucket.AllowAt cfg reqs
            (store (RateLimiter cfg))
    = Some (repeat true 20 ++ repeat false 5).
Proof. vm_compute. reflexivity. Qed.

(** * Further properties of the code *)

(** ** The registry over its lifetime *)

Section RegistryLifetime.
Context {Limiter : Type}.
Variable NewLimiter : Q -> Z -> Z -> Limiter.
Variable Allow : Limiter -> Z -> bool * Limiter.
Implicit Types (st : @Store Limiter) (m : @Middleware Limiter).

Lemma store_eq st1 st2 :
  limiters st1 = limiters st2 -> heap st1 = heap st2 -> st1 = st2.
Proof. destruct st1, st2. cbn. by intros -> ->. Qed.

(** X1. A key whose entry a tick has evicted gets, at its next lookup, a
    limiter that is newly constructed: it is not the limiter of the evicted
    entry, and that one is left as it was. *)
Theorem evicted_key_gets_new_limiter (rps : Q) (burst now ttl now' : Z)
    (key : string) st (old : limiterEntry) :
  wf_store st ->
  limiters st !! key = Some old ->
  lastAccess old < cutoff now ttl ->
  let res :=
    getLimiter NewLimiter rps burst now' key
               (cleanupInactiveLimiters now ttl st) in
  res.1 = constructed st /\
  res.1 <> limiter old /\
  limiters res.2 !! key = Some (mkEntry (constructed st) now') /\
  heap res.2 = heap st ++ [NewLimiter rps burst now'] /\
  heap res.2 !! limiter old = heap st !! limiter old.
Proof.
  intros Hwf Hk Hstale res. subst res.
  rewrite (getLimiter_absent NewLimiter rps burst now' key
             (cleanupInactiveLimiters now ttl st))
    by by eapply cleanup_stale.
  pose proof (Hwf key old Hk) as Hlt. cbn [fst snd limiters heap].
  unfold constructed. rewrite cleanup_heap. split_and!.
  - done.
  - lia.
  - apply lookup_insert_eq.
  - done.
  - by apply lookup_app_l.
Qed.

Lemma getLimiter_injective rps burst now key st :
  wf_store st -> limiters_injective st ->
  limiters_injective (getLimiter NewLimiter rps burst now key st).2.
Proof.
  intros Hwf Hinj.
  pose proof (getLimiter_post NewLimiter rps burst now key st) as Hpost.
  destruct (getLimiter NewLimiter rps burst now key st) as [l st'].
  destruct Hpost as (Hkey & Hother & new & Hheap & Hnew). cbn [snd].
  assert (forall k e, k <> key -> limiters st !! k = Some e ->
            limiter e <> l) as Hfresh.
  { intros k e Hne Hke Heq.
    destruct (limiters st !! key) as [entry|] eqn:Hk.
    - destruct Hnew as [_ ->]. by apply Hne, (Hinj k key e entry).
    - destruct Hnew as [_ ->]. apply Hwf in Hke. unfold constructed in Heq. lia. }
  intros k1 k2 e1 e2 H1 H2 Heq.
  destruct (decide (k1 = key)) as [->|Hne1], (decide (k2 = key)) as [->|Hne2];
    [done| | |].
  - rewrite Hkey in H1. injection H1 as <-. rewrite Hother in H2 by done.
    cbn in Heq. by destruct (Hfresh k2 e2).
  - rewrite Hkey in H2. injection H2 as <-. rewrite Hother in H1 by done.
    cbn in Heq. by destruct (Hfresh k1 e1).
  - rewrite Hother in H1, H2 by done. by eapply Hinj.
Qed.

Lemma decision_injective cfg now t r st ok st' :
  wf_store st -> limiters_injective st ->
  decision NewLimiter Allow cfg now t r st = Some (ok, st') ->
  limiters_injective st'.
Proof.
  intros Hwf Hinj. unfold decision.
  pose proof (getLimiter_injective (RequestsPerSecond cfg) (Burst cfg) now
                (KeyFunc cfg r) st Hwf Hinj) as Hinj1.
  destruct (getLimiter _ _ _ _ _ st) as [l st1]. cbn [snd] in Hinj1.
  unfold Allow_at. destruct (heap st1 !! l) as [lim|]; [|done].
  destruct (Allow lim t) as [ok' lim']. by intros [= _ <-].
Qed.

Lemma cleanup_injective now ttl st :
  limiters_injective st ->
  limiters_injective (cleanupInactiveLimiters now ttl st).
Proof.
  intros Hinj k1 k2 e1 e2 H1 H2.
  apply cleanup_only_deletes in H1, H2. by apply Hinj.
Qed.

Lemma perform_injective o m :
  wf_store (store m) -> limiters_injective (store m) ->
  limiters_injective (store (perform NewLimiter Allow o m)).
Proof.
  intros Hwf Hinj. destruct o as [now t r|[|now]]; cbn.
  - destruct (decision NewLimiter Allow (config m) now t r (store m))
      as [[ok st']|] eqn:Hdec; [|done].
    cbn. by eapply decision_injective.
  - unfold cleanup_loop. by destruct (cleanup_running m), (ctx_done m).
  - unfold cleanup_loop. destruct (cleanup_running m); [|done].
    cbn. by apply cleanup_injective.
Qed.

Lemma run_invariants ops : forall m,
  wf_store (store m) -> limiters_injective (store m) ->
  wf_store (store (run NewLimiter Allow ops m)) /\
  limiters_injective (store (run NewLimiter Allow ops m)).
Proof.
  induction ops as [|o ops IH]; intros m Hwf Hinj; [done|].
  unfold run in *. cbn [foldl]. apply IH.
  - by apply perform_wf.
  - by apply perform_injective.
Qed.

Lemma RateLimiter_invariants cfg :
  wf_store (store (@RateLimiter Limiter cfg)) /\
  limiters_injective (store (@RateLimiter Limiter cfg)).
Proof.
  split.
  - intros key entry Hk. cbn in Hk. by rewrite lookup_empty in Hk.
  - intros k1 k2 e1 e2 H1. cbn in H1. by rewrite lookup_empty in H1.
Qed.

(** X2. Whatever requests and ticks a middleware has seen, two keys of its
    registry never share a limiter, and every entry points to a limiter
    that exists. *)
Theorem reachable_registry_invariants (cfg : RateLimiterConfig)
    (ops : list operation) :
  let st := store (run NewLimiter Allow ops (RateLimiter cfg)) in
  limiters_injective st /\ wf_store st.
Proof.
  intros st. subst st.
  destruct (RateLimiter_invariants cfg) as [Hwf Hinj].
  destruct (run_invariants ops (RateLimiter cfg) Hwf Hinj). by split.
Qed.

(** X3. Whatever requests and ticks a middleware has seen, its handler
    serves the next request: the limiter [getLimiter] returns is never a
    dangling pointer. *)
Theorem reachable_middleware_serves {D : Type} (cfg : RateLimiterConfig)
    (ops : list operation) (next : Handler D) (now t : Z) (r : Request)
    (wd : ResponseWriter * D) :
  is_Some (RateLimiter_ServeHTTP NewLimiter Allow next now t r wd
             (run NewLimiter Allow ops (RateLimiter cfg))).
Proof.
  set (m := run NewLimiter Allow ops (RateLimiter cfg)).
  destruct (decision_by_Allow NewLimiter Allow (config m) now t r (store m)
              (run_wf NewLimiter Allow ops cfg)) as (lim & _ & Hdec).
  unfold RateLimiter_ServeHTTP. rewrite Hdec.
  by destruct (negb (Allow lim t).1).
Qed.

Lemma decision_frame (cfg : RateLimiterConfig)
    (now t : Z) (r : Request) st (other : string) (entry : limiterEntry) :
  wf_store st -> limiters_injective st ->
  other <> KeyFunc cfg r ->
  limiters st !! other = Some entry ->
  exists ok st',
    decision NewLimiter Allow cfg now t r st = Some (ok, st') /\
    limiters st' !! other = Some entry /\
    heap st' !! limiter entry = heap st !! limiter entry.
Proof.
  intros Hwf Hinj Hne Hother.
  destruct (decision_by_Allow NewLimiter Allow cfg now t r st Hwf)
    as (lim & Hlim & Hdec).
  pose proof (getLimiter_post NewLimiter (RequestsPerSecond cfg) (Burst cfg)
                now (KeyFunc cfg r) st) as Hpost.
  destruct (getLimiter NewLimiter (RequestsPerSecond cfg) (Burst cfg) now
              (KeyFunc cfg r) st) as [l st1].
  destruct Hpost as (_ & Hframe & new & Hheap & Hnew). cbn [fst snd] in *.
  eexists _, _. split; [exact Hdec|]. cbn [limiters heap].
  pose proof (Hwf other entry Hother) as Hlt.
  assert (limiter entry <> l) as Hdiff.
  { destruct (limiters st !! KeyFunc cfg r) as [mine|] eqn:Hk.
    - destruct Hnew as [_ ->]. intros Heq.
      by apply Hne, (Hinj other (KeyFunc cfg r) entry mine).
    - destruct Hnew as [_ ->]. unfold constructed. lia. }
  split.
  - by rewrite Hframe.
  - rewrite list_lookup_insert_ne by done.
    rewrite Hheap. by apply lookup_app_l.
Qed.

(** X4. A request spends from the limiter of its own key only: the entry
    of every other key, and the state of that key's limiter, are after the
    decision what they were before. *)
Theorem request_leaves_other_keys_alone (cfg : RateLimiterConfig)
    (now t : Z) (r : Request) st (other : string) (entry : limiterEntry) :
  wf_store st -> limiters_injective st ->
  other <> KeyFunc cfg r ->
  limiters st !! other = Some entry ->
  exists ok st',
    decision NewLimiter Allow cfg now t r st = Some (ok, st') /\
    limiters st' !! other = Some entry /\
    heap st' !! limiter entry = heap st !! limiter entry.
Proof. apply decision_frame. Qed.

(** X5. A negative time to live is kept as it is by [RateLimiter] (only
    zero is replaced), and with it every tick empties the registry: each
    entry last used at or before the tick is evicted. *)
Theorem negative_ttl_evicts_everything (cfg : RateLimiterConfig)
    (now : Z) st :
  InactiveTTL cfg < 0 ->
  Int64.in_range (now - InactiveTTL cfg) ->
  (forall key entry, limiters st !! key = Some entry ->
     lastAccess entry <= now) ->
  InactiveTTL (config (@RateLimiter Limiter cfg)) = InactiveTTL cfg /\
  limiters
    (store (cleanup_loop (TickerC now) (with_store (RateLimiter cfg) st)))
    = ∅.
Proof.
  intros Hneg Hrange Hpast.
  assert (InactiveTTL (config (@RateLimiter Limiter cfg)) = InactiveTTL cfg)
    as Hkept.
  { cbn. destruct (Z.eqb_spec (InactiveTTL cfg) 0); [lia | done]. }
  split; [exact Hkept|].
  unfold cleanup_loop. cbn [cleanup_running with_store RateLimiter store].
  change (InactiveTTL (config _)) with
    (InactiveTTL (config (@RateLimiter Limiter cfg))).
  rewrite Hkept. apply map_eq. intros key.
  rewrite cleanup_lookup, lookup_empty.
  destruct (limiters st !! key) as [entry|] eqn:Hk; [|done].
  unfold cutoff. rewrite Int64_sub_exact by done.
  specialize (Hpast key entry Hk).
  destruct (Z.ltb_spec (lastAccess entry) (now - InactiveTTL cfg)); [done|lia].
Qed.

(** X6. Ticks compose: a tick whose cutoff is not earlier than that of a
    tick before it leaves the registry as if the earlier tick had not
    happened; in particular a tick repeated changes nothing. *)
Theorem later_tick_subsumes_earlier (now1 ttl1 now2 ttl2 : Z) st :
  cutoff now1 ttl1 <= cutoff now2 ttl2 ->
  cleanupInactiveLimiters now2 ttl2 (cleanupInactiveLimiters now1 ttl1 st)
    = cleanupInactiveLimiters now2 ttl2 st /\
  cleanupInactiveLimiters now2 ttl2 (cleanupInactiveLimiters now2 ttl2 st)
    = cleanupInactiveLimiters now2 ttl2 st.
Proof.
  intros Hle.
  assert (forall a b c d, cutoff a b <= cutoff c d ->
            cleanupInactiveLimiters c d (cleanupInactiveLimiters a b st)
              = cleanupInactiveLimiters c d st) as Hcomp.
  { intros a b c d Hcd. apply store_eq; [|done]. apply map_eq. intros key.
    rewrite !cleanup_lookup.
    destruct (limiters st !! key) as [entry|]; [|done].
    destruct (Z.ltb_spec (lastAccess entry) (cutoff a b)) as [H1|H1];
      destruct (Z.ltb_spec (lastAccess entry) (cutoff c d)) as [H2|H2];
      try done; lia. }
  split; [by apply Hcomp | apply Hcomp; lia].
Qed.

(** X19. The decisions a key gets depend on its own requests only: in any
    series of requests, of whatever keys, those of a key that is bound are
    decided as successive calls of [Allow] on that key's limiter, at the
    times of its own requests. *)
Theorem decisions_of_a_key_are_its_own (cfg : RateLimiterConfig)
    (key : string) (reqs : list (Z * Z * Request)) st
    (entry : limiterEntry) (lim : Limiter) :
  wf_store st -> limiters_injective st ->
  limiters st !! key = Some entry ->
  heap st !! limiter entry = Some lim ->
  exists oks st',
    decisions NewLimiter Allow cfg reqs st = Some (oks, st') /\
    own_decisions cfg key reqs oks =
      (Allow_series Allow lim
         (map (fun q => q.1.2)
              (filter (fun q => KeyFunc cfg q.2 = key) reqs))).1.
Proof.
  revert st entry lim.
  induction reqs as [|[[now t] r] reqs IH];
    intros st entry lim Hwf Hinj Hk Hlim.
  - by eexists _, _.
  - cbn [decisions]. rewrite filter_cons. cbn [snd].
    destruct (decide (KeyFunc cfg r = key)) as [Hmine|Hother].
    + rewrite <- Hmine in Hk.
      pose proof (decision_bound NewLimiter Allow cfg now t r st entry lim
                    Hk Hlim) as Hdec.
      rewrite Hdec.
      set (st1 := mkStore _ _) in *.
      destruct (IH st1 (mkEntry (limiter entry) now) (Allow lim t).2)
        as (oks & st' & Hrest & Hown).
      * by eapply decision_wf.
      * by eapply decision_injective.
      * rewrite <- Hmine. apply lookup_insert_eq.
      * apply list_lookup_insert_eq. by eapply lookup_lt_Some.
      * rewrite Hrest. eexists _, _. split; [reflexivity|].
        cbn [own_decisions snd map Allow_series fst].
        rewrite decide_True by done. rewrite Hown.
        destruct (Allow lim t) as [ok lim']. cbn [fst snd].
        by destruct (Allow_series Allow lim' _).
    + destruct (decision_frame cfg now t r st key entry Hwf Hinj
                  ltac:(congruence) Hk) as (ok & st1 & Hdec & Hk1 & Hheap1).
      rewrite Hdec.
      destruct (IH st1 entry lim) as (oks & st' & Hrest & Hown).
      * by eapply decision_wf.
      * by eapply decision_injective.
      * done.
      * by rewrite Hheap1.
      * rewrite Hrest. eexists _, _. split; [reflexivity|].
        cbn [own_decisions snd]. by rewrite decide_False.
Qed.

(** X20. Every request refreshes its key, whether it is admitted or not:
    after the decision the key is bound with the time of the request as its
    last use, and a tick whose cutoff is not later than that time keeps it,
    with the same limiter. *)
Theorem request_refreshes_its_key (cfg : RateLimiterConfig)
    (now t now' ttl : Z) (r : Request) st :
  wf_store st ->
  cutoff now' ttl <= now ->
  exists ok st' l,
    decision NewLimiter Allow cfg now t r st = Some (ok, st') /\
    limiters st' !! KeyFunc cfg r = Some (mkEntry l now) /\
    limiters (cleanupInactiveLimiters now' ttl st') !! KeyFunc cfg r
      = Some (mkEntry l now).
Proof.
  intros Hwf Hcut.
  destruct (decision_by_Allow NewLimiter Allow cfg now t r st Hwf)
    as (lim & _ & Hdec).
  pose proof (getLimiter_post NewLimiter (RequestsPerSecond cfg) (Burst cfg)
                now (KeyFunc cfg r) st) as Hpost.
  destruct (getLimiter NewLimiter (RequestsPerSecond cfg) (Burst cfg) now
              (KeyFunc cfg r) st) as [l st1].
  destruct Hpost as (Hkey & _). cbn [fst snd] in *.
  eexists _, _, l. split; [exact Hdec|]. split; [exact Hkey|].
  by apply cleanup_recent.
Qed.

End RegistryLifetime.

(** ** More on the client address *)

Section RealIPEdges.
Variable TrimSpace : string -> string.
Variable ParseIP : string -> option (list Z).
Variable SplitHostPort : string -> string * string * option string.

Lemma RealIP_request_cases r :
  let c := RealIP_candidate TrimSpace r in
  (nonempty c = true /\ is_Some (ParseIP c) /\
   RealIP_request TrimSpace ParseIP r = WithValue RealIPKey c r)
  \/
  ((nonempty c = false \/ ParseIP c = None) /\
   RealIP_request TrimSpace ParseIP r = r).
Proof.
  intros c. unfold RealIP_request. fold c.
  destruct (nonempty c) eqn:Hc; cbn [andb].
  - destruct (ParseIP c) as [ip|] eqn:Hip.
    + left. rewrite bool_decide_eq_true_2 by by eexists.
      split_and!; [done | by eexists | done].
    + right. rewrite bool_decide_eq_false_2 by by intros [? ?].
      split; [by right | done].
  - right. split; [by left | done].
Qed.

(** X7. A forwarded list whose first entry is not an address hides the
    real-address header: the key is the peer address, whatever
    [X-Real-IP] holds. *)
Theorem bad_forwarded_for_hides_real_ip (r : Request) :
  (Context r) !! RealIPKey = None ->
  nonempty (Header_Get (Header r) "X-Forwarded-For") = true ->
  ParseIP (TrimSpace (List.hd ""%string
             (Split (Header_Get (Header r) "X-Forwarded-For") ","%char)))
    = None ->
  GetRealIP SplitHostPort (RealIP_request TrimSpace ParseIP r)
    = peer_address SplitHostPort r.
Proof.
  intros Hctx Hxff Hbad.
  assert (RealIP_candidate TrimSpace r =
          TrimSpace (List.hd ""%string
            (Split (Header_Get (Header r) "X-Forwarded-For") ","%char)))
    as Hcand.
  { unfold RealIP_candidate. cbn zeta. rewrite Hxff.
    by destruct (Split_cons (Header_Get (Header r) "X-Forwarded-For") ","%char)
      as (hd & tl & ->). }
  destruct (RealIP_request_cases r) as [(_ & [ip Hip] & _) | (_ & ->)].
  - rewrite Hcand in Hip. congruence.
  - by apply GetRealIP_fallback.
Qed.

(** X8. [RealIP] touches nothing but the [real_ip] value of the context:
    headers, peer address and the other context values pass unchanged.
    What it stores there is never empty and always parses as an address. *)
Theorem RealIP_stores_only_addresses (r : Request) :
  let r' := RealIP_request TrimSpace ParseIP r in
  Header r' = Header r /\
  RemoteAddr r' = RemoteAddr r /\
  (forall key, key <> RealIPKey -> Context r' !! key = Context r !! key) /\
  (forall ip, Context r' !! RealIPKey = Some ip ->
     Context r !! RealIPKey = Some ip \/
     (nonempty ip = true /\ is_Some (ParseIP ip))).
Proof.
  intros r'. subst r'.
  destruct (RealIP_request_cases r) as [(Hne & Hip & ->) | (_ & ->)].
  - split_and!; [done | done | |].
    + intros key Hkey. cbn. by rewrite lookup_insert_ne.
    + intros ip. cbn. rewrite lookup_insert_eq. intros [= <-]. by right.
  - split_and!; [done..|]. intros ip Hip. by left.
Qed.

(** X9. The key of a request is empty only if its peer address is: a
    client with a peer address never falls into a bucket of the empty
    key. *)
Theorem key_empty_only_without_peer (r : Request) :
  (Context r) !! RealIPKey = None ->
  KeyFunc (DefaultRateLimiterConfig SplitHostPort)
          (RealIP_request TrimSpace ParseIP r) = ""%string ->
  RemoteAddr r = ""%string.
Proof.
  intros Hctx. cbn [KeyFunc DefaultRateLimiterConfig].
  destruct (RealIP_request_cases r) as [(Hne & _ & ->) | (_ & ->)].
  - rewrite GetRealIP_stored by done. intros Hkey.
    rewrite Hkey in Hne. discriminate Hne.
  - rewrite GetRealIP_fallback by done. unfold peer_address.
    destruct (nonempty (SplitHostPort (RemoteAddr r)).1.1) eqn:Hhost; [|done].
    intros Hkey. rewrite Hkey in Hhost. discriminate Hhost.
Qed.
End RealIPEdges.

(** ** The status-capturing writer and the logger *)

Lemma apply_calls_app (cs1 cs2 : list call) (w : ResponseWriter) :
  apply_calls (cs1 ++ cs2) w = apply_calls cs2 (apply_calls cs1 w).
Proof. apply foldl_app. Qed.

Lemma apply_calls_cons (c : call) (cs : list call) (w : ResponseWriter) :
  apply_calls (c :: cs) w = apply_calls cs (apply_call c w).
Proof. reflexivity. Qed.

Lemma responseWriter_call_tracks (c : call) rw w :
  tracks rw w ->
  tracks (responseWriter_call c rw).2 (apply_call c w) /\
  apply_calls (responseWriter_call c rw).1 w = apply_call c w.
Proof.
  destruct rw as [sc wr], w as [h st wt bd]. unfold tracks. cbn.
  intros (-> & -> & H200).
  destruct c as [k v|code|b|lvl msg fs]; cbn.
  - by split.
  - unfold WriteHeader. cbn. destruct wt; cbn; by split.
  - unfold Write. cbn. destruct wt; cbn; [by split|].
    split; [|done]. split_and!; [done| |done]. by apply H200.
  - by split.
Qed.

Lemma responseWriter_calls_tracks (cs : list call) : forall rw w,
  tracks rw w ->
  tracks (responseWriter_calls cs rw).2 (apply_calls cs w) /\
  apply_calls (responseWriter_calls cs rw).1 w = apply_calls cs w.
Proof.
  induction cs as [|c cs IH]; intros rw w Htr; [done|].
  cbn [responseWriter_calls].
  destruct (responseWriter_call_tracks c rw w Htr) as [Htr1 Hfwd1].
  destruct (responseWriter_call c rw) as [fwd rw1]. cbn [fst snd] in *.
  destruct (IH rw1 (apply_call c w) Htr1) as [Htr2 Hfwd2].
  destruct (responseWriter_calls cs rw1) as [fwd' rw2]. cbn [fst snd] in *.
  split; [done|].
  by rewrite apply_calls_app, Hfwd1, apply_calls_cons.
Qed.

(** Once the wrapper has seen a write it forwards no [WriteHeader]. *)
Lemma responseWriter_calls_written (cs : list call) : forall rw,
  rw_written rw = true ->
  filter is_WriteHeader (responseWriter_calls cs rw).1 = [] /\
  (responseWriter_calls cs rw).2 = rw.
Proof.
  induction cs as [|c cs IH]; intros rw Hrw; [done|].
  cbn [responseWriter_calls].
  assert (exists fwd, responseWriter_call c rw = (fwd, rw) /\
                      filter is_WriteHeader fwd = []) as (fwd & -> & Hfwd).
  { destruct rw as [sc wr]. cbn in Hrw. subst wr.
    destruct c; cbn; by eexists. }
  destruct (IH rw Hrw) as [Hnone Hsame].
  destruct (responseWriter_calls cs rw) as [fwd' rw']. cbn [fst snd] in *.
  by rewrite filter_app, Hfwd, Hnone.
Qed.

Lemma filter_bool_cons {A : Type} (f : A -> bool) (x : A) (l : list A) :
  filter f (x :: l) = if f x then x :: filter f l else filter f l.
Proof.
  rewrite filter_cons. destruct (f x); by case_decide.
Qed.

Lemma responseWriter_calls_once (cs : list call) : forall rw,
  (length (filter is_WriteHeader (responseWriter_calls cs rw).1) <= 1)%nat.
Proof.
  induction cs as [|c cs IH]; intros rw; [cbn; lia|].
  destruct (rw_written rw) eqn:Hrw.
  - destruct (responseWriter_calls_written (c :: cs) rw Hrw) as [-> _].
    cbn. lia.
  - cbn [responseWriter_calls].
    destruct c as [k v|code|b|lvl msg fs]; cbn [responseWriter_call].
    + specialize (IH rw). destruct (responseWriter_calls cs rw) as [fwd' rw2].
      cbn [fst app] in *. by rewrite filter_bool_cons.
    + rewrite Hrw.
      destruct (responseWriter_calls_written cs (mkResponseWriter code true)
                  eq_refl) as [Hnone _].
      destruct (responseWriter_calls cs _) as [fwd' rw2].
      cbn [fst app] in *. rewrite filter_bool_cons, Hnone. cbn. lia.
    + destruct (responseWriter_calls_written cs
                  (mkResponseWriter (rw_statusCode rw) true) eq_refl)
        as [Hnone _].
      destruct (responseWriter_calls cs _) as [fwd' rw2].
      cbn [fst app] in *. rewrite filter_bool_cons, Hnone. cbn. lia.
    + specialize (IH rw). destruct (responseWriter_calls cs rw) as [fwd' rw2].
      cbn [fst app] in *. by rewrite filter_bool_cons.
Qed.

(** X10. The status-capturing writer, started as [Logger] starts it over a
    response nothing was written to: the response comes out as if the
    handler had written to it directly, the wrapper ends with the status of
    that response, and at most one [WriteHeader] reaches the writer
    underneath. *)
Theorem responseWriter_captures_status (cs : list call) (w : ResponseWriter) :
  written w = false -> statusCode w = StatusOK ->
  let res := responseWriter_calls cs (mkResponseWriter StatusOK false) in
  apply_calls res.1 w = apply_calls cs w /\
  rw_statusCode res.2 = statusCode (apply_calls cs w) /\
  rw_written res.2 = written (apply_calls cs w) /\
  (length (filter is_WriteHeader res.1) <= 1)%nat.
Proof.
  intros Hw Hs res.
  destruct (responseWriter_calls_tracks cs (mkResponseWriter StatusOK false) w)
    as [(Hwr & Hst & _) Hfwd].
  { by split_and!. }
  split_and!; [done..|]. apply responseWriter_calls_once.
Qed.

Section ChainFacts.
Variable SplitHostPort : string -> string * string * option string.
Variable ParseMediaType :
  string -> string * gmap string string * option string.

Lemma Logger_returns (latency : Z) (next : THandler) (r : FullRequest)
    (w : ResponseWriter) :
  panicked (next r) = None ->
  written w = false -> statusCode w = StatusOK ->
  exists fwd,
    apply_calls fwd w = apply_calls (calls (next r)) w /\
    Logger SplitHostPort latency next r
      = mkBehaviour
          (fwd ++ [Logger_record SplitHostPort latency r
                     (statusCode (apply_calls (calls (next r)) w))])
          None.
Proof.
  intros Hok Hw Hs. unfold Logger. cbn zeta. rewrite Hok.
  pose proof (responseWriter_calls_tracks (calls (next r))
                (mkResponseWriter StatusOK false) w) as [(_ & Hst & _) Hfwd].
  { by split_and!. }
  destruct (responseWriter_calls (calls (next r)) _) as [fwd ww].
  cbn [fst snd] in *. exists fwd. by rewrite Hst.
Qed.


(** X12. When the handler panics, [Logger] passes the panic on and logs
    nothing of its own: the records are those of the handler. *)
Theorem Logger_is_silent_on_panic (latency : Z) (next : THandler)
    (r : FullRequest) (v : string) :
  panicked (next r) = Some v ->
  panicked (Logger SplitHostPort latency next r) = Some v /\
  filter is_log (calls (Logger SplitHostPort latency next r))
    = filter is_log (calls (next r)).
Proof.
  intros Hpanic. unfold Logger. cbn zeta. rewrite Hpanic.
  assert (forall cs rw,
            filter is_log (responseWriter_calls cs rw).1 = filter is_log cs)
    as Hlogs.
  { induction cs as [|c cs IH]; intros rw; [done|].
    cbn [responseWriter_calls]. specialize (IH (responseWriter_call c rw).2).
    destruct (responseWriter_call c rw) as [fwd rw1] eqn:Hc. cbn [snd] in IH.
    destruct (responseWriter_calls cs rw1) as [fwd' rw2]. cbn [fst] in *.
    rewrite filter_app, IH.
    destruct c as [k v'|code|b|lvl msg fs]; cbn in Hc.
    - by injection Hc as <- <-.
    - destruct (rw_written rw); by injection Hc as <- <-.
    - by injection Hc as <- <-.
    - by injection Hc as <- <-. }
  specialize (Hlogs (calls (next r)) (mkResponseWriter StatusOK false)).
  destruct (responseWriter_calls (calls (next r)) _) as [fwd ww].
  by split.
Qed.
End ChainFacts.

(** ** Panics, request IDs, content types *)

Lemma apply_call_header_other (c : call) (w : ResponseWriter) (key : string) :
  (forall v, c <> CallSetHeader key v) ->
  header (apply_call c w) !! key = header w !! key.
Proof.
  intros Hc. destruct c as [k v|code|b|lvl msg fs]; cbn.
  - unfold Header_Set. rewrite lookup_insert_ne; [done|].
    intros ->. by apply (Hc v).
  - unfold WriteHeader. by destruct (written w).
  - unfold Write. by destruct (written w).
  - done.
Qed.

(** A handler that does not set a header leaves it as it found it. *)
Lemma apply_calls_header_other (cs : list call) (key : string) : forall w,
  Forall (fun c => forall v, c <> CallSetHeader key v) cs ->
  header (apply_calls cs w) !! key = header w !! key.
Proof.
  induction cs as [|c cs IH]; intros w Hcs; [done|].
  apply Forall_cons in Hcs as [Hc Hcs]. rewrite apply_calls_cons, IH by done.
  by apply apply_call_header_other.
Qed.

(** A handler that writes neither status nor body leaves both alone. *)
Lemma apply_calls_no_writes (cs : list call) : forall w,
  Forall (fun c => writes_response c = false) cs ->
  written (apply_calls cs w) = written w /\
  statusCode (apply_calls cs w) = statusCode w /\
  body (apply_calls cs w) = body w.
Proof.
  induction cs as [|c cs IH]; intros w Hcs; [done|].
  apply Forall_cons in Hcs as [Hc Hcs]. rewrite apply_calls_cons.
  destruct (IH (apply_call c w) Hcs) as (-> & -> & ->).
  by destruct c.
Qed.

Section PanicFacts.
Variable SplitHostPort : string -> string * string * option string.
Variable ParseMediaType :
  string -> string * gmap string string * option string.

(** The response after the deferred function of [Recoverer] ran. *)
Lemma Recoverer_recover_response stack write_err r err (w : ResponseWriter) :
  apply_calls (Recoverer_recover stack write_err r err) w
    = Write internal_error_body
        (WriteHeader StatusInternalServerError
           (SetHeader "Content-Type" "application/json" w)).
Proof. unfold Recoverer_recover. by destruct write_err. Qed.

(** X13. [Recoverer] lets no panic through and is not there for a handler
    that returns.  After a panic the error body is appended and the content
    type set; the status is 500 if the handler had written nothing, and
    stays what the handler had sent otherwise. *)
Theorem Recoverer_contains_panics (stack : string)
    (write_err : option string) (next : THandler) (r : FullRequest) :
  panicked (Recoverer stack write_err next r) = None /\
  (panicked (next r) = None -> Recoverer stack write_err next r = next r) /\
  (forall v (w : ResponseWriter),
     panicked (next r) = Some v ->
     let w0 := apply_calls (calls (next r)) w in
     let w' := apply_calls (calls (Recoverer stack write_err next r)) w in
     body w' = (body w0 ++ internal_error_body)%string /\
     Contains (body w')
       (dq ++ "code" ++ dq ++ ":" ++ dq ++ "INTERNAL_ERROR" ++ dq) = true /\
     header w' !! "Content-Type"%string = Some ["application/json"%string] /\
     (written w0 = false -> statusCode w' = StatusInternalServerError) /\
     (written w0 = true -> statusCode w' = statusCode w0)).
Proof.
  split_and!.
  - unfold Recoverer. cbn zeta.
    by destruct (panicked (next r)) eqn:Hp.
  - intros Hok. unfold Recoverer. cbn zeta. by rewrite Hok.
  - intros v w Hpanic w0 w'. subst w' w0.
    unfold Recoverer. cbn zeta. rewrite Hpanic. cbn [calls].
    rewrite apply_calls_app, Recoverer_recover_response.
    set (w0 := apply_calls (calls (next r)) w).
    assert (body (Write internal_error_body
                    (WriteHeader StatusInternalServerError
                       (SetHeader "Content-Type" "application/json" w0)))
            = (body w0 ++ internal_error_body)%string) as Hbody.
    { unfold Write, WriteHeader, SetHeader. cbn. by destruct (written w0). }
    split_and!.
    + done.
    + rewrite Hbody. apply Contains_app_r. by vm_compute.
    + unfold Write, WriteHeader, SetHeader, Header_Set. cbn.
      destruct (written w0); cbn; apply lookup_insert_eq.
    + intros Hw. unfold Write, WriteHeader, SetHeader. cbn. by rewrite Hw.
    + intros Hw. unfold Write, WriteHeader, SetHeader. cbn. by rewrite Hw.
Qed.

(** X14. [Logger] around [Recoverer], as the application stacks them: no
    panic gets out, every request gets its record, and for a handler that
    panicked before it wrote anything the record says 500. *)
Theorem Logger_Recoverer_logs_panics (latency : Z) (stack : string)
    (write_err : option string) (next : THandler) (r : FullRequest) :
  let stacked :=
    Logger SplitHostPort latency (Recoverer stack write_err next) r in
  (exists fwd status,
     stacked
       = mkBehaviour (fwd ++ [Logger_record SplitHostPort latency r status])
                     None) /\
  (forall v,
     panicked (next r) = Some v ->
     Forall (fun c => writes_response c = false) (calls (next r)) ->
     exists fwd,
       stacked
         = mkBehaviour
             (fwd ++ [Logger_record SplitHostPort latency r
                        StatusInternalServerError])
             None).
Proof.
  intros stacked. subst stacked.
  assert (panicked (Recoverer stack write_err next r) = None) as Hok.
  { unfold Recoverer. cbn zeta.
    by destruct (panicked (next r)) eqn:Hp. }
  destruct (Logger_returns SplitHostPort latency
              (Recoverer stack write_err next) r fresh_writer Hok
              eq_refl eq_refl) as (fwd & _ & Hlog).
  split; [by eexists _, _|].
  intros v Hpanic Hquiet. exists fwd. rewrite Hlog. do 3 f_equal.
  unfold Recoverer. cbn zeta. rewrite Hpanic. cbn [calls].
  rewrite apply_calls_app, Recoverer_recover_response.
  destruct (apply_calls_no_writes (calls (next r)) fresh_writer Hquiet)
    as (Hw & _ & _).
  unfold Write, WriteHeader, SetHeader. cbn. by rewrite Hw.
Qed.

(** X15. One request ID everywhere: the ID [RequestID] puts on the
    response is the ID the handler finds in its context and the ID in the
    record of a [Logger] behind it; it is the ID the request came with, if
    it came with one, and the generated one otherwise. *)
Theorem RequestID_is_the_same_everywhere (uuid : string) (latency : Z)
    (next : THandler) (r : FullRequest) (w : ResponseWriter) :
  let incoming := Header_Get (Header (base r)) RequestIDHeader in
  let id := if nonempty incoming then incoming else uuid in
  let r' := with_base r (WithValue RequestIDKey id (base r)) in
  panicked (next r') = None ->
  written w = false -> statusCode w = StatusOK ->
  Forall (fun c => forall v, c <> CallSetHeader RequestIDHeader v)
         (calls (next r')) ->
  GetRequestID (Context (base r')) = id /\
  header (apply_calls
            (calls (RequestID uuid (Logger SplitHostPort latency next) r)) w)
    !! RequestIDHeader = Some [id] /\
  exists fwd fields,
    calls (RequestID uuid (Logger SplitHostPort latency next) r)
      = CallSetHeader RequestIDHeader id
          :: fwd ++ [CallLog "info" "HTTP Request" fields] /\
    field "request_id" fields = Some (VString id).
Proof.
  intros incoming id r' Hok Hw Hs Hquiet.
  assert (GetRequestID (Context (base r')) = id) as Hctx.
  { unfold GetRequestID. cbn. by rewrite lookup_insert_eq. }
  split; [exact Hctx|].
  set (w1 := SetHeader RequestIDHeader id w).
  destruct (Logger_returns SplitHostPort latency next r' w1 Hok Hw Hs)
    as (fwd & Hfwd & Hlog).
  assert (calls (RequestID uuid (Logger SplitHostPort latency next) r)
          = CallSetHeader RequestIDHeader id
              :: fwd ++ [Logger_record SplitHostPort latency r'
                           (statusCode (apply_calls (calls (next r')) w1))])
    as Hcalls.
  { unfold RequestID. cbn zeta. fold incoming. fold id. fold r'.
    by rewrite Hlog. }
  split.
  - rewrite Hcalls, apply_calls_cons. cbn [apply_call]. fold w1.
    rewrite apply_calls_app, Hfwd. cbn.
    rewrite apply_calls_header_other by done.
    apply lookup_insert_eq.
  - eexists fwd, _. split; [exact Hcalls|].
    transitivity (Some (VString (GetRequestID (Context (base r')))));
      [reflexivity | by rewrite Hctx].
Qed.

(** X16. [ContentTypeJSON] turns a request away only if it is a POST, PUT
    or PATCH with a content type that does not parse or is not
    [application/json]; a write without a content type, and every other
    method, pass.  A request turned away is answered with 415 and the
    handler behind is not run. *)
Theorem ContentTypeJSON_rejects_only_bad_writes (next : THandler)
    (r : FullRequest) :
  (is_write_method (Method r) = false ->
   ContentTypeJSON_rejects ParseMediaType r = false) /\
  (Header_Get (Header (base r)) "Content-Type" = ""%string ->
   ContentTypeJSON_rejects ParseMediaType r = false) /\
  (ContentTypeJSON_rejects ParseMediaType r = false ->
   ContentTypeJSON ParseMediaType next r
     = mkBehaviour
         (CallSetHeader "Content-Type" "application/json" :: calls (next r))
         (panicked (next r))) /\
  (ContentTypeJSON_rejects ParseMediaType r = true ->
   (forall other : THandler,
      ContentTypeJSON ParseMediaType other r
        = ContentTypeJSON ParseMediaType next r) /\
   panicked (ContentTypeJSON ParseMediaType next r) = None /\
   forall w : ResponseWriter,
     let w' := apply_calls (calls (ContentTypeJSON ParseMediaType next r)) w in
     body w' = (body w ++ unsupported_media_type_body)%string /\
     (written w = false -> statusCode w' = StatusUnsupportedMediaType)).
Proof.
  split_and!.
  - intros Hm. unfold ContentTypeJSON_rejects. by rewrite Hm.
  - intros Hct. unfold ContentTypeJSON_rejects. rewrite Hct.
    by destruct (is_write_method (Method r)).
  - intros Hpass. unfold ContentTypeJSON. cbn zeta. by rewrite Hpass.
  - intros Hrej. unfold ContentTypeJSON. cbn zeta. rewrite Hrej. split_and!; [done..|].
    intros w. cbn. unfold Write, WriteHeader, SetHeader. cbn.
    destruct (written w); by split.
Qed.
End PanicFacts.

(** ** Headers along the chain *)

Lemma header_apply_call (c : call) (w : ResponseWriter) (key : string) :
  header (apply_call c w) !! key =
    match last_set key [c] with
    | Some v => Some [v]
    | None => header w !! key
    end.
Proof.
  destruct c as [k v|code|b|lvl msg fs]; cbn.
  - unfold Header_Set. destruct (String.eqb_spec k key) as [->|Hne].
    + apply lookup_insert_eq.
    + by apply lookup_insert_ne.
  - unfold WriteHeader. by destruct (written w).
  - unfold Write. by destruct (written w).
  - done.
Qed.

(** A header of the response is what the last [Set] of it said, or what it
    was before. *)
Lemma header_apply_calls (cs : list call) (key : string) : forall w,
  header (apply_calls cs w) !! key =
    match last_set key cs with
    | Some v => Some [v]
    | None => header w !! key
    end.
Proof.
  induction cs as [|c cs IH]; intros w; [done|].
  rewrite apply_calls_cons, IH. cbn [last_set].
  destruct (last_set key cs); [done|]. apply header_apply_call.
Qed.

Lemma last_set_app (key : string) (cs1 cs2 : list call) :
  last_set key (cs1 ++ cs2) =
    match last_set key cs2 with
    | Some v => Some v
    | None => last_set key cs1
    end.
Proof.
  induction cs1 as [|c cs1 IH]; cbn [app last_set].
  - by destruct (last_set key cs2).
  - rewrite IH. by destruct (last_set key cs2).
Qed.

Section HeaderFacts.
Variable ParseMediaType :
  string -> string * gmap string string * option string.

(** X17. Behind [SecureHeaders], [APIVersion] and [ContentTypeJSON], as
    the application stacks them, every response carries the security
    headers and the version, also the 415 of [ContentTypeJSON], unless the
    handler sets them itself; the transport-security header is added for
    TLS requests only. *)
Theorem security_headers_on_every_response (h : THandler) (version : string)
    (fr : FullRequest) (w : ResponseWriter) :
  let stacked :=
    SecureHeaders (APIVersion version (ContentTypeJSON ParseMediaType h)) in
  let w' := apply_calls (calls (stacked fr)) w in
  (forall key,
     key ∈ ["X-Content-Type-Options"; "X-Frame-Options";
            "Strict-Transport-Security"; "Content-Security-Policy";
            "Referrer-Policy"; "X-API-Version"]%string ->
     last_set key (calls (h fr)) = None) ->
  header w' !! "X-Content-Type-Options"%string = Some ["nosniff"%string] /\
  header w' !! "X-Frame-Options"%string = Some ["DENY"%string] /\
  header w' !! "Content-Security-Policy"%string
    = Some ["default-src 'none'; frame-ancestors 'none'"%string] /\
  header w' !! "Referrer-Policy"%string
    = Some ["strict-origin-when-cross-origin"%string] /\
  header w' !! "X-API-Version"%string = Some [version] /\
  header w' !! "Strict-Transport-Security"%string =
    (if TLS fr then Some ["max-age=31536000; includeSubDomains"%string]
     else header w !! "Strict-Transport-Security"%string).
Proof.
  intros stacked w' Hquiet. subst w' stacked.
  assert (forall key,
            key ∈ ["X-Content-Type-Options"; "X-Frame-Options";
                   "Strict-Transport-Security"; "Content-Security-Policy";
                   "Referrer-Policy"; "X-API-Version"]%string ->
            last_set key (calls (ContentTypeJSON ParseMediaType h fr))
              = last_set key
                  [CallSetHeader "Content-Type" "application/json"])
    as Hinner.
  { intros key Hkey. unfold ContentTypeJSON. cbn zeta.
    destruct (ContentTypeJSON_rejects ParseMediaType fr); cbn [calls].
    - cbn. by destruct (String.eqb "Content-Type" key).
    - cbn [last_set]. by rewrite (Hquiet key Hkey). }
  unfold SecureHeaders, APIVersion. cbn zeta. cbn [calls].
  rewrite !header_apply_calls.
  repeat (rewrite !last_set_app; cbn [last_set]).
  rewrite !Hinner by set_solver. cbn.
  destruct (TLS fr); by split_and!.
Qed.

Section Limited.
Context {Limiter : Type}.
Variable NewLimiter : Q -> Z -> Z -> Limiter.
Variable Allow : Limiter -> Z -> bool * Limiter.

(** X18. [RateLimiter] stands before [SecureHeaders] and [APIVersion]:
    an admitted request gets the response of the handlers behind, while a
    rate-limited one is answered before they run, with no header set but
    [Content-Type] and [Retry-After]. *)
Theorem rate_limited_response_skips_the_chain {D : Type} (h : THandler)
    (version : string) (fr : FullRequest) (now t : Z)
    (w : ResponseWriter) (d : D) (m : @Middleware Limiter) :
  wf_store (store m) ->
  let stacked :=
    SecureHeaders (APIVersion version (ContentTypeJSON ParseMediaType h)) in
  exists ok w' m',
    decision NewLimiter Allow (config m) now t (base fr) (store m)
      = Some (ok, store m') /\
    RateLimiter_ServeHTTP NewLimiter Allow (serve stacked fr) now t (base fr)
      (w, d) m = Some (w', d, m') /\
    (ok = false ->
       forall key,
         key <> "Content-Type"%string -> key <> "Retry-After"%string ->
         header w' !! key = header w !! key) /\
    (ok = true -> w' = apply_calls (calls (stacked fr)) w).
Proof.
  intros Hwf stacked.
  destruct (decision_by_Allow NewLimiter Allow (config m) now t (base fr)
              (store m) Hwf) as (lim & _ & Hdec).
  set (st' := mkStore _ _) in Hdec.
  unfold RateLimiter_ServeHTTP. rewrite Hdec.
  destruct (Allow lim t).1 eqn:Hok; cbn [negb].
  - exists true, (apply_calls (calls (stacked fr)) w), (with_store m st').
    split_and!; [done | | done | done].
    unfold serve. cbn [fst snd]. by destruct fr.
  - exists false, (reject w), (with_store m st').
    split_and!; [done | done | | done].
    intros _ key Hct Hra.
    unfold reject, Write, WriteHeader, SetHeader, Header_Set. cbn.
    destruct (written w); cbn; by rewrite !lookup_insert_ne.
Qed.
End Limited.
End HeaderFacts.

(** ** The further properties at sample inputs *)

Lemma evicted_key_gets_new_limiter_witness :
  let res :=
    getLimiter TokenBucket.NewLimiter 10 20 (Sample.now + 1) "203.0.113.1"
      (cleanupInactiveLimiters Sample.now Sample.ttl Sample.registry) in
  res.1 = 2%nat /\ res.1 <> 0%nat.
Proof.
  destruct (evicted_key_gets_new_limiter TokenBucket.NewLimiter 10 20
              Sample.now Sample.ttl (Sample.now + 1) "203.0.113.1"
              Sample.registry
              (mkEntry 0 (Sample.now - 20 * Duration.Minute)))
    as (Hnew & Hdiff & _).
  - intros key entry Hk. cbn in Hk.
    destruct (decide (key = "203.0.113.1"%string)) as [->|Hne1].
    + rewrite lookup_insert_eq in Hk. injection Hk as <-. cbn. lia.
    + rewrite lookup_insert_ne in Hk by done.
      destruct (decide (key = "198.51.100.7"%string)) as [->|Hne2].
      * rewrite lookup_insert_eq in Hk. injection Hk as <-. cbn. lia.
      * rewrite lookup_insert_ne, lookup_empty in Hk by done. discriminate Hk.
  - reflexivity.
  - vm_compute. reflexivity.
  - split; [exact Hnew | exact Hdiff].
Defined.

Lemma request_leaves_other_keys_alone_witness :
  exists ok st',
    decision Sample.unit_limiter Sample.grant (config Fixture.served)
      (Sample.now + 1) (Sample.now + 1)
      (Sample.request ["203.0.113.1"%string] [] "192.0.2.9:4711")
      (store Fixture.served) = Some (ok, st') /\
    limiters st' !! "198.51.100.7"%string = Some (mkEntry 1 Sample.now).
Proof.
  destruct (run_invariants Sample.unit_limiter Sample.grant
              [Serve Sample.now Sample.now
                 (Sample.request ["203.0.113.1"%string] [] "192.0.2.9:4711");
               Serve Sample.now Sample.now
                 (Sample.request ["198.51.100.7"%string] [] "192.0.2.9:4711")]
              (RateLimiter
                 (mkConfig 10 20
                    (fun r => Header_Get (Header r) "X-Forwarded-For") 0 0)))
    as [Hwf Hinj].
  - apply RateLimiter_invariants.
  - apply RateLimiter_invariants.
  - destruct (request_leaves_other_keys_alone Sample.unit_limiter Sample.grant
                (config Fixture.served) (Sample.now + 1) (Sample.now + 1)
                (Sample.request ["203.0.113.1"%string] [] "192.0.2.9:4711")
                (store Fixture.served) "198.51.100.7"
                (mkEntry 1 Sample.now) Hwf Hinj)
      as (ok & st' & Hdec & Hentry & _).
    + vm_compute. discriminate.
    + vm_compute. reflexivity.
    + by exists ok, st'.
Defined.

Lemma negative_ttl_evicts_everything_witness :
  limiters
    (store (cleanup_loop (TickerC Sample.now)
              (with_store (RateLimiter Fixture.negative_ttl)
                          Sample.registry)))
    = ∅.
Proof.
  apply (negative_ttl_evicts_everything Fixture.negative_ttl Sample.now
           Sample.registry).
  - reflexivity.
  - vm_compute. split; discriminate.
  - intros key entry Hk. cbn in Hk.
    destruct (decide (key = "203.0.113.1"%string)) as [->|Hne1].
    + rewrite lookup_insert_eq in Hk. injection Hk as <-.
      vm_compute. discriminate.
    + rewrite lookup_insert_ne in Hk by done.
      destruct (decide (key = "198.51.100.7"%string)) as [->|Hne2].
      * rewrite lookup_insert_eq in Hk. injection Hk as <-.
        vm_compute. discriminate.
      * rewrite lookup_insert_ne, lookup_empty in Hk by done. discriminate Hk.
Defined.

Lemma later_tick_subsumes_earlier_witness :
  cleanupInactiveLimiters (Sample.now + Duration.Minute) Sample.ttl
    (cleanupInactiveLimiters Sample.now Sample.ttl Sample.registry)
  = cleanupInactiveLimiters (Sample.now + Duration.Minute) Sample.ttl
      Sample.registry.
Proof.
  apply (later_tick_subsumes_earlier Sample.now Sample.ttl
           (Sample.now + Duration.Minute) Sample.ttl Sample.registry).
  vm_compute. discriminate.
Defined.

Lemma bad_forwarded_for_hides_real_ip_witness :
  GetRealIP Sample.SplitHostPort
    (RealIP_request Sample.TrimSpace Sample.ParseIP (base Fixture.post))
  = "192.0.2.9"%string.
Proof.
  rewrite (bad_forwarded_for_hides_real_ip Sample.TrimSpace Sample.ParseIP
             Sample.SplitHostPort (base Fixture.post));
    [vm_compute; reflexivity | reflexivity | reflexivity
     | vm_compute; reflexivity].
Defined.

Lemma key_empty_only_without_peer_witness :
  RemoteAddr Fixture.unknown_peer = ""%string.
Proof.
  apply (key_empty_only_without_peer Sample.TrimSpace Sample.ParseIP
           Sample.SplitHostPort Fixture.unknown_peer).
  - reflexivity.
  - vm_compute. reflexivity.
Defined.

(** A body, then 404, then 500: the body went out with 200, and no
    [WriteHeader] reaches the writer. *)
Lemma responseWriter_captures_status_witness :
  let res :=
    responseWriter_calls Fixture.late_status (mkResponseWriter StatusOK false)
  in
  rw_statusCode res.2 = 200 /\
  statusCode (apply_calls Fixture.late_status fresh_writer) = 200 /\
  filter is_WriteHeader res.1 = [].
Proof.
  destruct (responseWriter_captures_status Fixture.late_status fresh_writer
              eq_refl eq_refl) as (_ & Hstatus & _ & _).
  split_and!; [|reflexivity..].
  rewrite Hstatus. reflexivity.
Defined.


Lemma Logger_is_silent_on_panic_witness :
  panicked (Logger Sample.SplitHostPort 0 Fixture.crash Fixture.get)
    = Some "boom"%string /\
  filter is_log (calls (Logger Sample.SplitHostPort 0 Fixture.crash Fixture.get))
    = [].
Proof.
  exact (Logger_is_silent_on_panic Sample.SplitHostPort 0 Fixture.crash
           Fixture.get "boom" eq_refl).
Defined.

Lemma RequestID_is_the_same_everywhere_witness :
  header (apply_calls
            (calls (RequestID "generated"
                      (Logger Sample.SplitHostPort 0 Fixture.created)
                      Fixture.post)) fresh_writer)
    !! RequestIDHeader = Some ["req-7"%string] /\
  header (apply_calls
            (calls (RequestID "generated"
                      (Logger Sample.SplitHostPort 0 Fixture.created)
                      Fixture.get)) fresh_writer)
    !! RequestIDHeader = Some ["generated"%string].
Proof.
  split.
  - destruct (RequestID_is_the_same_everywhere Sample.SplitHostPort "generated"
                0 Fixture.created Fixture.post fresh_writer eq_refl eq_refl
                eq_refl) as (_ & Hheader & _); [|exact Hheader].
    repeat constructor; intros v; discriminate.
  - destruct (RequestID_is_the_same_everywhere Sample.SplitHostPort "generated"
                0 Fixture.created Fixture.get fresh_writer eq_refl eq_refl
                eq_refl) as (_ & Hheader & _); [|exact Hheader].
    repeat constructor; intros v; discriminate.
Defined.

Lemma security_headers_on_every_response_witness :
  let w' :=
    apply_calls
      (calls (SecureHeaders
                (APIVersion "v1"
                   (ContentTypeJSON Fixture.ParseMediaType Fixture.created))
                Fixture.post)) fresh_writer in
  statusCode w' = 415 /\
  header w' !! "X-Frame-Options"%string = Some ["DENY"%string] /\
  header w' !! "X-API-Version"%string = Some ["v1"%string].
Proof.
  intros w'.
  destruct (security_headers_on_every_response Fixture.ParseMediaType
              Fixture.created "v1" Fixture.post fresh_writer)
    as (_ & Hframe & _ & _ & Hversion & _).
  - intros key Hkey. set_unfold in Hkey.
    destruct Hkey as [->|[->|[->|[->|[->|[->|[]]]]]]]; reflexivity.
  - split_and!; [reflexivity | exact Hframe | exact Hversion].
Defined.

Lemma rate_limited_response_skips_the_chain_witness :
  exists w' m',
    RateLimiter_ServeHTTP Sample.unit_limiter Sample.deny
      (serve (SecureHeaders
                (APIVersion "v1"
                   (ContentTypeJSON Fixture.ParseMediaType Fixture.created)))
             Fixture.get)
      Sample.now Sample.now (base Fixture.get) (fresh_writer, tt)
      (RateLimiter (DefaultRateLimiterConfig Sample.SplitHostPort))
    = Some (w', tt, m') /\
    header w' !! "X-Frame-Options"%string = None.
Proof.
  destruct (rate_limited_response_skips_the_chain Fixture.ParseMediaType
              Sample.unit_limiter Sample.deny Fixture.created "v1" Fixture.get
              Sample.now Sample.now fresh_writer tt
              (RateLimiter (DefaultRateLimiterConfig Sample.SplitHostPort)))
    as (ok & w' & m' & Hdec & Hserve & Hno & _).
  - apply RateLimiter_invariants.
  - exists w', m'. split; [exact Hserve|].
    assert (ok = false) as Hok.
    { vm_compute in Hdec. by injection Hdec as <- _. }
    by rewrite (Hno Hok "X-Frame-Options"%string).
Defined.

Lemma Sample_registry_wf : wf_store Sample.registry.
Proof.
  intros key entry Hk. cbn in Hk.
  destruct (decide (key = "203.0.113.1"%string)) as [->|Hne1].
  - rewrite lookup_insert_eq in Hk. injection Hk as <-. cbn. lia.
  - rewrite lookup_insert_ne in Hk by done.
    destruct (decide (key = "198.51.100.7"%string)) as [->|Hne2].
    + rewrite lookup_insert_eq in Hk. injection Hk as <-. cbn. lia.
    + rewrite lookup_insert_ne, lookup_empty in Hk by done. discriminate Hk.
Qed.

(** Requests of two clients in turn: the first client's decisions are
    those of its own limiter. *)
Lemma decisions_of_a_key_are_its_own_witness :
  let cfg := config Fixture.served in
  let a := Sample.request ["203.0.113.1"%string] [] "192.0.2.9:4711" in
  let b := Sample.request ["198.51.100.7"%string] [] "192.0.2.9:4711" in
  let reqs := [(1, 1, a); (2, 2, b); (3, 3, a)] in
  exists oks st',
    decisions Sample.unit_limiter Sample.grant cfg reqs (store Fixture.served)
      = Some (oks, st') /\
    own_decisions cfg "203.0.113.1" reqs oks = [true; true].
Proof.
  intros cfg a b reqs.
  destruct (run_invariants Sample.unit_limiter Sample.grant
              [Serve Sample.now Sample.now
                 (Sample.request ["203.0.113.1"%string] [] "192.0.2.9:4711");
               Serve Sample.now Sample.now
                 (Sample.request ["198.51.100.7"%string] [] "192.0.2.9:4711")]
              (RateLimiter
                 (mkConfig 10 20
                    (fun r => Header_Get (Header r) "X-Forwarded-For") 0 0)))
    as [Hwf Hinj]; [apply RateLimiter_invariants..|].
  destruct (decisions_of_a_key_are_its_own Sample.unit_limiter Sample.grant
              cfg "203.0.113.1" reqs (store Fixture.served)
              (mkEntry 0 Sample.now) tt Hwf Hinj)
    as (oks & st' & Hdec & Hown).
  - vm_compute. reflexivity.
  - reflexivity.
  - exists oks, st'. split; [exact Hdec|]. rewrite Hown. reflexivity.
Defined.

(** A request at [now] and a tick ten minutes later: the key stays. *)
Lemma request_refreshes_its_key_witness :
  exists ok st' l,
    decision TokenBucket.NewLimiter TokenBucket.AllowAt
      (DefaultRateLimiterConfig Sample.SplitHostPort) Sample.now Sample.now
      (Sample.request [] [] "192.0.2.9:4711") Sample.registry = Some (ok, st') /\
    limiters (cleanupInactiveLimiters (Sample.now + Sample.ttl) Sample.ttl st')
      !! "192.0.2.9"%string = Some (mkEntry l Sample.now).
Proof.
  destruct (request_refreshes_its_key TokenBucket.NewLimiter
              TokenBucket.AllowAt
              (DefaultRateLimiterConfig Sample.SplitHostPort)
              Sample.now Sample.now (Sample.now + Sample.ttl) Sample.ttl
              (Sample.request [] [] "192.0.2.9:4711") Sample.registry
              Sample_registry_wf)
    as (ok & st' & l & Hdec & _ & Hkept).
  - vm_compute. discriminate.
  - exists ok, st', l. split; [exact Hdec | exact Hkept].
Defined.
